(** * mcms: bulk block operations of the Litematica example

    A shallow embedding of the helper functions of
    [examples/04 Read and use Litematica files.ipynb]: enumeration of a
    schematic region ([create_blocks], [to_block],
    [modify_start_location]), box filling ([fill]), chunk splitting
    ([split_list]) and the two bulk loops ([build_region],
    [clear_region]).

    Python integers are unbounded, so they are [Z]; a Python call either
    returns a value or raises, which is the [outcome] type; a [dict] with
    string keys is a [gmap string _]; console output ([print], the [tqdm]
    progress bar) is not modelled. *)

From stdpp Require Import gmap strings list fin_maps.
From Stdlib Require Import ZArith Lia Ascii.
From Stdlib Require QArith.

(** ** Exceptions and the result of a call *)

Inductive exn : Type :=
| ValueError          (* range() with step 0; unpacking a wrong number of values *)
| UnboundLocalError   (* a local variable read before any assignment *)
| AuthenticationError (* raised by the connection: credentials rejected *)
| ConnectionError     (* raised by the connection: transport lost *)
| TimeoutError.       (* raised by the connection: no answer within the timeout *)

Inductive outcome (A : Type) : Type :=
| Ret (a : A)
| Raise (e : exn).
Arguments Ret {A} a.
Arguments Raise {A} e.

Definition bind {A B} (m : outcome A) (k : A → outcome B) : outcome B :=
  match m with
  | Ret a => k a
  | Raise e => Raise e
  end.

Notation "'let*' x := m 'in' k" := (bind m (λ x, k))
  (at level 10, x name, m at level 100, k at level 200,
   format "'[v' 'let*'  x  :=  m  'in' '/' k ']'").

(** [for x in xs: body], where the body updates the loop-carried variables
    [acc] and may raise. *)
Fixpoint for_each {A S} (xs : list A) (acc : S) (body : A → S → outcome S)
  : outcome S :=
  match xs with
  | [] => Ret acc
  | x :: rest => let* acc' := body x acc in for_each rest acc' body
  end.

(** ** Python built-ins used by the notebook *)

(** Number of elements of [range(lo, hi, step)] for [step > 0]. *)
Definition range_len (lo hi step : Z) : Z :=
  if (hi <=? lo)%Z then 0%Z else ((hi - lo - 1) / step + 1)%Z.

(** The elements of [range(start, stop, step)] for a non-zero [step]:
    ascending while below [stop] when [step > 0], descending while above
    [stop] when [step < 0]. *)
Definition range_list (start stop step : Z) : list Z :=
  let n := if (0 <? step)%Z then range_len start stop step
           else range_len stop start (- step) in
  map (λ i : nat, (start + Z.of_nat i * step)%Z) (seq 0 (Z.to_nat n)).

(** [range(start, stop, step)]: a zero step is a [ValueError]. *)
Definition range (start stop step : Z) : outcome (list Z) :=
  if (step =? 0)%Z then Raise ValueError else Ret (range_list start stop step).

Definition len {A} (l : list A) : Z := Z.of_nat (length l).

(** [l[i:j]]: a negative bound counts from the end, and both bounds are
    clamped to [0 .. len(l)]; an empty or inverted window gives []. *)
Definition slice {A} (l : list A) (i j : Z) : list A :=
  let clamp (k : Z) :=
    if (k <? 0)%Z then Z.max (k + len l) 0 else Z.min k (len l) in
  take (Z.to_nat (clamp j - clamp i)) (drop (Z.to_nat (clamp i)) l).

(** [s.split(":")]: cuts at every colon, so a string with [n] colons gives
    [n + 1] pieces. *)
Fixpoint split_colon (s : string) : list string :=
  match s with
  | EmptyString => [EmptyString]
  | String c rest =>
      if Ascii.eqb c ":"%char then EmptyString :: split_colon rest
      else match split_colon rest with
           | piece :: pieces => String c piece :: pieces
           | [] => [String c EmptyString]
           end
  end.

(** ** split_list *)

(** [[my_list[i:i+sublist_size] for i in range(0, len(my_list), sublist_size)]] *)
Definition split_list {A} (my_list : list A) (sublist_size : Z)
  : outcome (list (list A)) :=
  let* starts := range 0 (len my_list) sublist_size in
  Ret (map (λ i, slice my_list i (i + sublist_size)) starts).

(** [ceil(n / k)] for [k >= 1], as an integer division. *)
Definition ceil_div (n k : Z) : Z := ((n + k - 1) / k)%Z.

(** ** Data model *)

(** Modelled from the spec: the dataclasses of [mcms.data] are not among the
    sources.  A Location is three integer coordinates. *)
Module Location.
Record t : Type := mk { x : Z; y : Z; z : Z }.
End Location.

(** Modelled from the spec: an Enchantment is a name and a level. *)
Module Enchantment.
Record t : Type := mk { name : string; level : Z }.
End Enchantment.

(** Modelled from the spec: an ItemStack is a name, an inventory slot, a count
    and a sequence of enchantments. *)
Module ItemStack.
Record t : Type :=
  mk { name : string; index : Z; count : Z; enchantments : list Enchantment.t }.
End ItemStack.

(** Modelled from the spec: a Block has a namespace (default ["minecraft"]), a
    name, a location, a state mapping property names to string values and an
    inventory, an ordered sequence of ItemStack; a Block built from a name and
    a location alone has the default namespace, no state and no inventory. *)
Module Block.
Record t : Type :=
  mk { namespace : string;
       name : string;
       location : Location.t;
       state : gmap string string;
       inventory : list ItemStack.t }.

Definition default_namespace : string := "minecraft".

(** [Block(name=name, location=location)] *)
Definition make (name : string) (location : Location.t) : t :=
  mk default_namespace name location ∅ [].
End Block.

(** Modelled from the spec: a Player is a name, a location and an online
    flag. *)
Module Player.
Record t : Type := mk { name : string; location : Location.t; online : bool }.
End Player.

(** What the notebook reads of a litemapy [BlockState]: its [id], and the
    ["Properties"] entry of [to_nbt()] when there is one. *)
Module BlockState.
Record t : Type :=
  mk { id : string; nbt_properties : option (gmap string string) }.
End BlockState.

(** What the notebook reads of a litemapy [Region]: the three minima, the
    three coordinate ranges it iterates over, and [region[x, y, z]], which
    holds a block state at every cell of those ranges. *)
Module Region.
Record t : Type :=
  mk { min_x : Z; min_y : Z; min_z : Z;
       xrange : list Z; yrange : list Z; zrange : list Z;
       getitem : Z → Z → Z → BlockState.t }.
End Region.

(** ** Enumerating a region *)

Definition modify_start_location (location : Location.t) (region : Region.t)
  : Location.t :=
  Location.mk (Location.x location - Region.min_x region - 1)
              (Location.y location - Region.min_y region - 1)
              (Location.z location - Region.min_z region - 1).

(** [namespace, name = block_state.id.split(":")] raises [ValueError] unless
    the split has exactly two pieces; [state] is filled entry by entry from
    the properties. *)
Definition to_block (block_state : BlockState.t) (location : Location.t)
  : outcome Block.t :=
  match split_colon (BlockState.id block_state) with
  | [namespace; name] =>
      let state :=
        match BlockState.nbt_properties block_state with
        | Some properties =>
            map_fold (λ k v (state : gmap string string), <[k := v]> state)
                     ∅ properties
        | None => ∅
        end in
      Ret (Block.mk namespace name location state [])
  | _ => Raise ValueError
  end.

Definition create_blocks (region : Region.t) (start : Location.t)
    (default_block_name : option string) : outcome (list Block.t) :=
  let start_location := modify_start_location start region in
  for_each (Region.xrange region) [] (λ x blocks,
    for_each (Region.yrange region) blocks (λ y blocks,
      for_each (Region.zrange region) blocks (λ z blocks,
        let block_state := Region.getitem region x y z in
        if String.eqb (BlockState.id block_state) "minecraft:air"
        then Ret blocks
        else
          let location :=
            Location.mk (x + Location.x start_location)
                        (y + Location.y start_location)
                        (z + Location.z start_location) in
          let* block :=
            match default_block_name with
            | Some name => Ret (Block.make name location)
            | None => to_block block_state location
            end in
          Ret (blocks ++ [block])))).

(** ** fill *)

Definition fill (block : Block.t) (x_length y_length z_length : Z)
  : list Block.t :=
  foldl (λ blocks x,
    foldl (λ blocks y,
      foldl (λ blocks z,
        blocks ++
        [Block.mk (Block.namespace block)
                  (Block.name block)
                  (Location.mk (Location.x (Block.location block) + x)
                               (Location.y (Block.location block) + y)
                               (Location.z (Block.location block) + z))
                  (Block.state block)
                  (Block.inventory block)])
        blocks (range_list 0 z_length 1))
      blocks (range_list 0 y_length 1))
    [] (range_list 0 x_length 1).

(** ** The connection and the bulk loops *)

(** A call of a connection method returns a pair: element 0 is the status,
    element 1 the payload. *)
Definition response (P : Type) : Type := Z * P.

(** [mcms.connection.Connection] is not among the sources, and the bulk
    loops only call its [set_blocks].  What one call does may depend on
    everything sent before, so the method takes the chunks already sent on
    this connection (oldest first), then its two arguments. *)
Module Connection.
Record t : Type :=
  mk { set_blocks :
         list (list Block.t) → list Block.t → Z →
         outcome (response (list Block.t)) }.
End Connection.

(** Code that talks to the connection: it runs from the chunks sent so far
    and gives its outcome together with the chunks sent by then; an
    exception keeps what was sent. *)
Definition io (A : Type) : Type :=
  list (list Block.t) → outcome A * list (list Block.t).

Definition io_ret {A} (a : A) : io A := λ sent, (Ret a, sent).

Definition io_raise {A} (e : exn) : io A := λ sent, (Raise e, sent).

Definition io_bind {A B} (m : io A) (k : A → io B) : io B :=
  λ sent,
    match m sent with
    | (Ret a, sent') => k a sent'
    | (Raise e, sent') => (Raise e, sent')
    end.

Notation "'let!' x := m 'in' k" := (io_bind m (λ x, k))
  (at level 10, x name, m at level 100, k at level 200,
   format "'[v' 'let!'  x  :=  m  'in' '/' k ']'").

(** A computation that does not touch the connection. *)
Definition lift {A} (m : outcome A) : io A := λ sent, (m, sent).

(** [connection.set_blocks(b, timeout=timeout)] *)
Definition call_set_blocks (connection : Connection.t) (b : list Block.t)
    (timeout : Z) : io (response (list Block.t)) :=
  λ sent, (Connection.set_blocks connection sent b timeout, sent ++ [b]).

(** [for b in blocks_set: result = connection.set_blocks(b, timeout=timeout)];
    [result] is [None] while the loop has not assigned it. *)
Fixpoint dispatch (connection : Connection.t) (timeout : Z)
    (blocks_set : list (list Block.t))
    (result : option (response (list Block.t)))
  : io (option (response (list Block.t))) :=
  match blocks_set with
  | [] => io_ret result
  | b :: rest =>
      let! r := call_set_blocks connection b timeout in
      dispatch connection timeout rest (Some r)
  end.

(** [return result[0]]: reading [result] when the loop never ran is an
    [UnboundLocalError]. *)
Definition return_status (result : option (response (list Block.t))) : io Z :=
  match result with
  | Some r => io_ret r.1
  | None => io_raise UnboundLocalError
  end.

(** [split_size] and [timeout] are [None] when the caller leaves them out. *)
Definition build_region (connection : Connection.t) (region : Region.t)
    (start : Location.t) (split_size timeout : option Z) : io Z :=
  let split_size := default 10000%Z split_size in
  let timeout := default 300%Z timeout in
  let! blocks := lift (create_blocks region start None) in
  let! blocks_set := lift (split_list blocks split_size) in
  let! result := dispatch connection timeout blocks_set None in
  return_status result.

Definition clear_region (connection : Connection.t) (region : Region.t)
    (start : Location.t) (split_size timeout : option Z) : io Z :=
  let split_size := default 10000%Z split_size in
  let timeout := default 300%Z timeout in
  let! blocks := lift (create_blocks region start (Some "air")) in
  let! blocks_set := lift (split_list blocks split_size) in
  let! result := dispatch connection timeout blocks_set None in
  return_status result.

(** ** The bulk operations in the spec's words *)

(** The air block the spec's clear puts in the place of a block: name
    ["air"], default namespace, no state, no inventory. *)
Definition override_to_air (block : Block.t) : Block.t :=
  Block.mk Block.default_namespace "air" (Block.location block) ∅ [].

(** A set-batch: split the blocks into chunks, dispatch the chunks in order,
    answer with the status of the last call. *)
Definition set_batch (connection : Connection.t) (blocks : list Block.t)
    (split_size timeout : option Z) : io Z :=
  let! blocks_set := lift (split_list blocks (default 10000%Z split_size)) in
  let! result :=
    dispatch connection (default 300%Z timeout) blocks_set None in
  return_status result.

(** Clear as the spec words it: the set-batch of the enumerated blocks, each
    overridden to the air block. *)
Definition clear_as_set_batch (connection : Connection.t) (region : Region.t)
    (start : Location.t) (split_size timeout : option Z) : io Z :=
  let! blocks := lift (create_blocks region start None) in
  set_batch connection (override_to_air <$> blocks) split_size timeout.

(** ** The core operations *)

Module Core.
(** Modelled from the spec: [mcms.connection] is not among the sources.
    One request/response exchange on the session channel ends in one of
    three ways: the server answers with a status code and a payload (a
    rejection by the server is an answer whose status says so), the
    credentials are refused, or the transport is lost. *)
Inductive exchange (P : Type) : Type :=
| Answered (status : Z) (payload : P)
| AuthenticationFailed
| TransportLost.
Arguments Answered {P} status payload.
Arguments AuthenticationFailed {P}.
Arguments TransportLost {P}.

(** Modelled from the spec: an operation hands every answer back as the
    pair (status, payload) and aborts on the two channel failures only. *)
Definition deliver {P} (e : exchange P) : outcome (response P) :=
  match e with
  | Answered status payload => Ret (status, payload)
  | AuthenticationFailed => Raise AuthenticationError
  | TransportLost => Raise ConnectionError
  end.

(** Modelled from the spec: what the remote server does with each of the
    four request shapes, ExecuteCommand(text), SetBlocks(blockList),
    GetBlocks(locationList) and GetPlayers(onlineOnly). *)
Record server : Type :=
  mk_server {
    on_execute_command : string → exchange string;
    on_set_blocks : list Block.t → Z → exchange (list Block.t);
    on_get_blocks : list Location.t → exchange (list Block.t);
    on_get_players : bool → exchange (list Player.t) }.

(** Modelled from the spec: the four exposed operations. *)
Definition execute_commands (s : server) (text : string)
  : outcome (response string) :=
  deliver (on_execute_command s text).

Definition set_blocks (s : server) (blocks : list Block.t) (timeout : Z)
  : outcome (response (list Block.t)) :=
  deliver (on_set_blocks s blocks timeout).

Definition get_blocks (s : server) (locations : list Location.t)
  : outcome (response (list Block.t)) :=
  deliver (on_get_blocks s locations).

Definition get_players (s : server) (only_online : bool)
  : outcome (response (list Player.t)) :=
  deliver (on_get_players s only_online).
End Core.

(** ** Vocabulary of the statements *)

(** The two bulk operations of the notebook. *)
Inductive bulk : Type := Build | Clear.

Definition run_bulk (op : bulk)
  : Connection.t → Region.t → Location.t → option Z → option Z → io Z :=
  match op with
  | Build => build_region
  | Clear => clear_region
  end.

(** The blocks a bulk operation enumerates before it splits them. *)
Definition bulk_blocks (op : bulk) (region : Region.t) (start : Location.t)
  : outcome (list Block.t) :=
  match op with
  | Build => create_blocks region start None
  | Clear => create_blocks region start (Some "air")
  end.

(** [set_blocks] returns, with whatever status, on each of the first [n]
    chunks when they are sent in order on a fresh connection. *)
Definition returns_upto (connection : Connection.t) (timeout : Z)
    (chunks : list (list Block.t)) (n : nat) : Prop :=
  ∀ j b, j < n → chunks !! j = Some b →
    ∃ r, Connection.set_blocks connection (take j chunks) b timeout = Ret r.

(** Chunk [i] is the first on which [set_blocks] raises, and it raises [e]. *)
Definition raises_at (connection : Connection.t) (timeout : Z)
    (chunks : list (list Block.t)) (i : nat) (e : exn) : Prop :=
  returns_upto connection timeout chunks i ∧
  ∃ b, chunks !! i = Some b ∧
       Connection.set_blocks connection (take i chunks) b timeout = Raise e.

(** The block [fill] makes for the offset [(dx, dy, dz)]. *)
Definition shifted (block : Block.t) (dx dy dz : Z) : Block.t :=
  Block.mk (Block.namespace block) (Block.name block)
           (Location.mk (Location.x (Block.location block) + dx)
                        (Location.y (Block.location block) + dy)
                        (Location.z (Block.location block) + dz))
           (Block.state block) (Block.inventory block).

(** The cells of a region, in the order the three nested loops of
    [create_blocks] visit them. *)
Definition cells (region : Region.t) : list (Z * Z * Z) :=
  Region.xrange region ≫= λ x,
  Region.yrange region ≫= λ y,
  Region.zrange region ≫= λ z, [(x, y, z)].

Definition cell_state (region : Region.t) (cell : Z * Z * Z) : BlockState.t :=
  Region.getitem region cell.1.1 cell.1.2 cell.2.

Definition is_air (block_state : BlockState.t) : Prop :=
  BlockState.id block_state = "minecraft:air".

Definition non_air_cells (region : Region.t) : list (Z * Z * Z) :=
  filter (λ cell, ¬ is_air (cell_state region cell)) (cells region).

(** An identifier with exactly one colon: a namespace and a name. *)
Definition namespaced (id : string) : Prop :=
  ∃ namespace name, split_colon id = [namespace; name].

(** The property map of a block state; none when [to_nbt()] has no
    ["Properties"]. *)
Definition properties_of (block_state : BlockState.t) : gmap string string :=
  default ∅ (BlockState.nbt_properties block_state).

(** Where the block of a cell is put: start + cell - region minimum - 1 on
    every axis. *)
Definition placed (region : Region.t) (start : Location.t) (cell : Z * Z * Z)
  : Location.t :=
  Location.mk (Location.x start + cell.1.1 - Region.min_x region - 1)
              (Location.y start + cell.1.2 - Region.min_y region - 1)
              (Location.z start + cell.2 - Region.min_z region - 1).

(** What the innermost loop body of [create_blocks] builds for one cell that
    is not air. *)
Definition block_of_cell (region : Region.t) (start : Location.t)
    (default_block_name : option string) (cell : Z * Z * Z) : outcome Block.t :=
  let start_location := modify_start_location start region in
  let location :=
    Location.mk (cell.1.1 + Location.x start_location)
                (cell.1.2 + Location.y start_location)
                (cell.2 + Location.z start_location) in
  match default_block_name with
  | Some name => Ret (Block.make name location)
  | None => to_block (cell_state region cell) location
  end.

(** Apply a function that may raise to every element, left to right, and
    stop at the first exception. *)
Fixpoint collect {A B} (f : A → outcome B) (l : list A) : outcome (list B) :=
  match l with
  | [] => Ret []
  | a :: rest =>
      let* b := f a in
      let* bs := collect f rest in
      Ret (b :: bs)
  end.

(** An operation reports through its status: every answer of the server,
    whatever its status, comes back as a pair whose element 0 is the status
    and whose element 1 is the payload, and the operation raises only when
    the credentials were refused or the transport was lost. *)
Definition reports_through_status {Req P}
    (operation : Req → outcome (response P))
    (serve : Req → Core.exchange P) : Prop :=
  ∀ req,
    (∀ status payload,
       serve req = Core.Answered status payload →
       ∃ r, operation req = Ret r ∧ r.1 = status ∧ r.2 = payload) ∧
    (∀ e, operation req = Raise e →
       serve req = Core.AuthenticationFailed ∧ e = AuthenticationError ∨
       serve req = Core.TransportLost ∧ e = ConnectionError).

(** ** Sample data *)

Definition stone : BlockState.t := BlockState.mk "minecraft:stone" None.
Definition oak_log : BlockState.t :=
  BlockState.mk "minecraft:oak_log" (Some {[ "axis" := "y" ]}).
Definition dirt : BlockState.t := BlockState.mk "minecraft:dirt" None.
Definition air : BlockState.t := BlockState.mk "minecraft:air" None.

(** Four cells in a row along x: stone, air, an oak log, dirt. *)
Definition row_region : Region.t :=
  Region.mk 0 0 0 [0; 1; 2; 3]%Z [0%Z] [0%Z]
    (λ x _ _, if (x =? 0)%Z then stone
              else if (x =? 1)%Z then air
              else if (x =? 2)%Z then oak_log
              else dirt).

(** Two cells, both air. *)
Definition air_region : Region.t :=
  Region.mk 0 0 0 [0; 1]%Z [0%Z] [0%Z] (λ _ _ _, air).

Definition origin : Location.t := Location.mk 10 64 (-5).

(** A connection on which every call answers 200 and echoes the blocks. *)
Definition always_ok : Connection.t :=
  Connection.mk (λ _ b _, Ret (200%Z, b)).

(** A connection on which the second call times out. *)
Definition timeout_on_second : Connection.t :=
  Connection.mk (λ sent b _,
    if length sent =? 1 then Raise TimeoutError else Ret (200%Z, b)).

(** A connection on which the second call is answered with an error status
    and no blocks. *)
Definition reject_second : Connection.t :=
  Connection.mk (λ sent b _,
    if length sent =? 1 then Ret (500%Z, []) else Ret (200%Z, b)).

(** The blocks [create_blocks] makes of [row_region] from [origin]. *)
Definition stone_block : Block.t :=
  Block.mk "minecraft" "stone" (Location.mk 9 63 (-6)) ∅ [].
Definition oak_log_block : Block.t :=
  Block.mk "minecraft" "oak_log" (Location.mk 11 63 (-6))
           {[ "axis" := "y" ]} [].
Definition dirt_block : Block.t :=
  Block.mk "minecraft" "dirt" (Location.mk 12 63 (-6)) ∅ [].

(** A server that refuses every command with status 403, sets blocks, loses
    the transport on a block query and refuses the credentials on a player
    query. *)
Definition sample_server : Core.server :=
  Core.mk_server (λ _, Core.Answered 403 "forbidden")
                 (λ blocks _, Core.Answered 200 blocks)
                 (λ _, Core.TransportLost)
                 (λ _, Core.AuthenticationFailed).

(** ** Clearing the space near a player *)

(** A coordinate of a player's location as the notebook handles it: a Python
    number, an [int] or a finite [float] (a rational). *)
Module Number.
Inductive t : Type :=
| Int (z : Z)
| Float (q : QArith_base.Q).
End Number.

(** [int(x)]: an [int] is itself, a [float] is cut toward zero. *)
Definition int (x : Number.t) : Z :=
  match x with
  | Number.Int z => z
  | Number.Float q =>
      Z.quot (QArith_base.Qnum q) (Z.pos (QArith_base.Qden q))
  end.

(** What [clear_space_near_to_player] reads of a player that [get_players]
    returns: its [name] and the coordinates of its [location]. *)
Module Position.
Record t : Type := mk { x : Number.t; y : Number.t; z : Number.t }.
End Position.

Module OnlinePlayer.
Record t : Type := mk { name : string; location : Position.t }.
End OnlinePlayer.

(** The connection as [clear_space_near_to_player] uses it: [get_players],
    which like [set_blocks] may depend on the chunks sent before, and the
    [set_blocks] of the bulk loops. *)
Module PlayerConnection.
Record t : Type :=
  mk { get_players :
         list (list Block.t) → bool →
         outcome (response (list OnlinePlayer.t));
       blocks : Connection.t }.
End PlayerConnection.

(** The exceptions of [clear_space_near_to_player]: the ones above, and the
    [KeyError] of a dictionary lookup, which carries the missing key. *)
Inductive raised : Type :=
| Exn (e : exn)
| KeyError (key : string).

Inductive result (A : Type) : Type :=
| Returned (a : A)
| Raised (e : raised).
Arguments Returned {A} a.
Arguments Raised {A} e.

(** [{p.name: p for p in players}]: a later player replaces an earlier one
    of the same name. *)
Definition by_name (players : list OnlinePlayer.t)
  : gmap string OnlinePlayer.t :=
  foldl (λ d p, <[OnlinePlayer.name p := p]> d) ∅ players.

(** The lengths are 1 and the timeout is 100 when the caller leaves them
    out.  The function runs from the chunks sent so far and gives its result
    with the chunks sent by then. *)
Definition clear_space_near_to_player (connection : PlayerConnection.t)
    (player_name : string) (x_length y_length z_length timeout : option Z)
  : list (list Block.t) → result Z * list (list Block.t) :=
  λ sent,
    let x_length := default 1%Z x_length in
    let y_length := default 1%Z y_length in
    let z_length := default 1%Z z_length in
    let timeout := default 100%Z timeout in
    match PlayerConnection.get_players connection sent true with
    | Raise e => (Raised (Exn e), sent)
    | Ret players =>
        let players := by_name players.2 in
        match players !! player_name with
        | None => (Raised (KeyError player_name), sent)
        | Some player =>
            let start_location := OnlinePlayer.location player in
            let start_block :=
              Block.make "air"
                (Location.mk (int (Position.x start_location))
                             (int (Position.y start_location))
                             (int (Position.z start_location))) in
            let blocks := fill start_block x_length y_length z_length in
            match Connection.set_blocks (PlayerConnection.blocks connection)
                    sent blocks timeout with
            | Raise e => (Raised (Exn e), sent ++ [blocks])
            | Ret result => (Returned result.1, sent ++ [blocks])
            end
        end
    end.

(** ** More vocabulary *)

(** The number of colons of a string. *)
Fixpoint count_colons (s : string) : nat :=
  match s with
  | EmptyString => 0
  | String c rest =>
      if Ascii.eqb c ":"%char then S (count_colons rest)
      else count_colons rest
  end.

(** A location moved by an offset. *)
Definition moved (location : Location.t) (dx dy dz : Z) : Location.t :=
  Location.mk (Location.x location + dx)
              (Location.y location + dy)
              (Location.z location + dz).

(** Steve stands at (3.5, 64.0, -7.25); Alex is listed twice. *)
Definition steve : OnlinePlayer.t :=
  OnlinePlayer.mk "Steve"
    (Position.mk (Number.Float (QArith_base.Qmake 7 2)) (Number.Int 64)
                 (Number.Float (QArith_base.Qmake (-29) 4))).
Definition alex_before : OnlinePlayer.t :=
  OnlinePlayer.mk "Alex"
    (Position.mk (Number.Int 0) (Number.Int 70) (Number.Int 0)).
Definition alex_after : OnlinePlayer.t :=
  OnlinePlayer.mk "Alex"
    (Position.mk (Number.Int 8) (Number.Int 71) (Number.Int 9)).

(** A connection on which three players are online and every block request
    is answered 200. *)
Definition three_online : PlayerConnection.t :=
  PlayerConnection.mk (λ _ _, Ret (200%Z, [alex_before; steve; alex_after]))
                      always_ok.

(** A region with a cell whose identifier has no namespace. *)
Definition bare_region : Region.t :=
  Region.mk 0 0 0 [0; 1]%Z [0%Z] [0%Z]
    (λ x _ _, if (x =? 0)%Z then stone else BlockState.mk "granite" None).

(** * Proofs *)

Section SplitList.
Context {A : Type}.
Implicit Types (l : list A) (k i : Z).

Lemma slice_window l i k :
  (0 ≤ i)%Z → (0 ≤ k)%Z →
  slice l i (i + k) = take (Z.to_nat k) (drop (Z.to_nat i) l).
Proof.
  intros Hi Hk. unfold slice, len.
  destruct (Z.ltb_spec i 0); [lia|].
  destruct (Z.ltb_spec (i + k) 0); [lia|].
  destruct (Z.le_gt_cases i (Z.of_nat (length l))) as [Hin|Hout].
  - rewrite (Z.min_l i) by lia.
    destruct (Z.le_gt_cases (i + k) (Z.of_nat (length l))).
    + rewrite Z.min_l by lia. f_equal. lia.
    + rewrite Z.min_r by lia.
      rewrite !take_ge; [done| |]; rewrite length_drop; lia.
  - rewrite !Z.min_r by lia. rewrite Z.sub_diag.
    rewrite !drop_ge by lia. by rewrite !take_nil.
Qed.

Lemma range_ascending n k :
  (1 ≤ k)%Z →
  range 0 n k =
  Ret (map (λ j : nat, (Z.of_nat j * k)%Z)
           (seq 0 (Z.to_nat (range_len 0 n k)))).
Proof.
  intros Hk. unfold range, range_list.
  destruct (Z.eqb_spec k 0); [lia|].
  destruct (Z.ltb_spec 0 k); [|lia].
  apply (f_equal Ret), List.map_ext. intros j. lia.
Qed.

Lemma range_len_ceil n k :
  (1 ≤ k)%Z → (0 ≤ n)%Z → range_len 0 n k = ceil_div n k.
Proof.
  intros Hk Hn. unfold range_len, ceil_div.
  destruct (Z.leb_spec n 0).
  - assert (n = 0%Z) as -> by lia.
    symmetry. apply Z.div_small. lia.
  - replace (n + k - 1)%Z with ((n - 0 - 1) + 1 * k)%Z by lia.
    rewrite Z.div_add by lia. lia.
Qed.

Lemma ceil_div_bounds n k :
  (1 ≤ k)%Z → (0 ≤ n)%Z →
  (k * (ceil_div n k - 1) < n ≤ k * ceil_div n k)%Z.
Proof.
  intros Hk Hn. unfold ceil_div.
  pose proof (Z.div_mod (n + k - 1) k ltac:(lia)).
  pose proof (Z.mod_pos_bound (n + k - 1) k ltac:(lia)).
  lia.
Qed.

Lemma split_list_unfold l k :
  (1 ≤ k)%Z →
  split_list l k =
  Ret (map (λ j : nat, take (Z.to_nat k) (drop (j * Z.to_nat k) l))
           (seq 0 (Z.to_nat (ceil_div (len l) k)))).
Proof.
  intros Hk. unfold split_list. rewrite range_ascending by done.
  rewrite range_len_ceil by (unfold len; lia). simpl.
  rewrite List.map_map. apply (f_equal Ret), List.map_ext. intros j.
  rewrite slice_window by lia. do 2 f_equal. lia.
Qed.

Lemma windows_concat l (w c : nat) :
  concat (map (λ j : nat, take w (drop (j * w) l)) (seq 0 c))
  = take (c * w) l.
Proof.
  induction c as [|c IH]; [done|].
  rewrite List.seq_S, List.map_app, List.concat_app, IH. simpl.
  rewrite app_nil_r, take_take_drop. f_equal. lia.
Qed.
End SplitList.

Example split_list_five :
  split_list [1; 2; 3; 4; 5]%Z 2 = Ret [[1; 2]; [3; 4]; [5]]%Z.
Proof. reflexivity. Qed.

Example slice_from_the_end : slice [1; 2; 3; 4; 5]%Z (-2) 9 = [4; 5]%Z.
Proof. reflexivity. Qed.

Example range_descending : range 5 0 (-2) = Ret [5; 3; 1]%Z.
Proof. reflexivity. Qed.

Lemma split_list_partition {A} (l : list A) (k : Z) :
  (1 ≤ k)%Z →
  ∃ chunks,
    split_list l k = Ret chunks ∧
    len chunks = ceil_div (len l) k ∧
    Forall (λ chunk, (len chunk ≤ k)%Z) chunks ∧
    concat chunks = l.
Proof.
  intros Hk. eexists. split; [by apply split_list_unfold|].
  pose proof (ceil_div_bounds (len l) k Hk ltac:(unfold len; lia)) as Hc.
  assert (0 ≤ ceil_div (len l) k)%Z as Hpos by (unfold len in *; nia).
  split; [|split].
  - unfold len at 1. rewrite List.length_map, List.length_seq. lia.
  - apply Forall_forall. intros chunk Hin.
    apply list_elem_of_In, List.in_map_iff in Hin as (j & <- & _).
    unfold len. rewrite length_take. lia.
  - rewrite windows_concat. apply take_ge. unfold len in *. nia.
Qed.

(** C2: for a chunk size [k >= 1], [split_list] returns exactly
    [ceil(n / k)] chunks for a list of length [n], no chunk is longer than
    [k], and the chunks concatenated in order give the list back. *)
Theorem split_list_chunks {A} (l : list A) (k : Z) :
  (1 ≤ k)%Z →
  ∃ chunks,
    split_list l k = Ret chunks ∧
    len chunks = ceil_div (len l) k ∧
    (k * (ceil_div (len l) k - 1) < len l ≤ k * ceil_div (len l) k)%Z ∧
    Forall (λ chunk, (len chunk ≤ k)%Z) chunks ∧
    concat chunks = l.
Proof.
  intros Hk.
  destruct (split_list_partition l k Hk) as (chunks & Hsplit & Hlen & Hrest).
  exists chunks. repeat split; try tauto.
  all: apply ceil_div_bounds; unfold len; lia.
Qed.

Lemma split_list_chunks_witness :
  ∃ chunks,
    split_list [1%Z; 2%Z; 3%Z; 4%Z; 5%Z] 2 = Ret chunks ∧
    len chunks = ceil_div (len [1%Z; 2%Z; 3%Z; 4%Z; 5%Z]) 2 ∧
    (2 * (ceil_div (len [1%Z; 2%Z; 3%Z; 4%Z; 5%Z]) 2 - 1)
     < len [1%Z; 2%Z; 3%Z; 4%Z; 5%Z]
     ≤ 2 * ceil_div (len [1%Z; 2%Z; 3%Z; 4%Z; 5%Z]) 2)%Z ∧
    Forall (λ chunk, (len chunk ≤ 2)%Z) chunks ∧
    concat chunks = [1%Z; 2%Z; 3%Z; 4%Z; 5%Z].
Proof. apply (split_list_chunks [1%Z; 2%Z; 3%Z; 4%Z; 5%Z] 2). lia. Defined.

(** C10: [split_list] with chunk size 0 raises (the zero range step), and
    with a negative chunk size it returns the empty list whatever the
    list holds, so every element of a non-empty list is dropped. *)
Theorem split_list_degenerate {A} (l : list A) (k : Z) :
  (k < 0)%Z →
  split_list l 0 = Raise ValueError ∧ split_list l k = Ret [].
Proof.
  intros Hk. split; [done|]. unfold split_list, range, range_list.
  destruct (Z.eqb_spec k 0); [lia|].
  destruct (Z.ltb_spec 0 k); [lia|].
  unfold range_len. destruct (Z.leb_spec 0 (len l)); [done|].
  unfold len in *. lia.
Qed.

Lemma split_list_degenerate_witness :
  (-3 < 0)%Z ∧
  split_list ["a"; "b"] 0 = Raise ValueError ∧
  split_list ["a"; "b"] (-3) = Ret [].
Proof. split; [lia|]. apply (split_list_degenerate ["a"; "b"] (-3)). lia. Defined.

(** ** fill *)

Section Loops.
Context {A B : Type}.

(** A loop that only appends to its accumulator collects what each
    iteration appends, in order. *)
Lemma foldl_appending (f : list B → A → list B) (g : A → list B) l acc :
  (∀ acc x, f acc x = acc ++ g x) →
  foldl f acc l = acc ++ (l ≫= g).
Proof.
  intros Hf. revert acc. induction l as [|x l IH]; intros acc; simpl.
  - by rewrite app_nil_r.
  - rewrite Hf, IH. by rewrite <- app_assoc.
Qed.

Lemma length_bind_const (g : A → list B) (c : nat) l :
  (∀ x, length (g x) = c) → length (l ≫= g) = length l * c.
Proof.
  intros Hg. induction l as [|x l IH]; [done|].
  change ((x :: l) ≫= g) with (g x ++ (l ≫= g)).
  rewrite length_app, Hg, IH. simpl. lia.
Qed.
End Loops.

Lemma range_list_upto n :
  range_list 0 n 1 = map Z.of_nat (seq 0 (Z.to_nat n)).
Proof.
  unfold range_list, range_len. simpl.
  destruct (Z.leb_spec n 0).
  - by replace (Z.to_nat n) with 0 by lia.
  - rewrite Z.div_1_r. replace (n - 0 - 1 + 1)%Z with n by lia.
    apply List.map_ext. intros j. lia.
Qed.

Lemma elem_of_range_list_upto n i :
  i ∈ range_list 0 n 1 ↔ (0 ≤ i < n)%Z.
Proof.
  rewrite range_list_upto, list_elem_of_In, List.in_map_iff. split.
  - intros (j & <- & Hj%List.in_seq). lia.
  - intros Hi. exists (Z.to_nat i). rewrite List.in_seq. lia.
Qed.

Lemma length_range_list_upto n : length (range_list 0 n 1) = Z.to_nat n.
Proof. by rewrite range_list_upto, List.length_map, List.length_seq. Qed.

Lemma NoDup_range_list_upto n : NoDup (range_list 0 n 1).
Proof.
  rewrite range_list_upto. apply (NoDup_fmap_2 Z.of_nat), NoDup_seq.
Qed.

Lemma fill_unfold block xl yl zl :
  fill block xl yl zl =
  range_list 0 xl 1 ≫= λ dx,
  range_list 0 yl 1 ≫= λ dy,
  range_list 0 zl 1 ≫= λ dz, [shifted block dx dy dz].
Proof.
  unfold fill.
  rewrite (foldl_appending _
    (λ dx, range_list 0 yl 1 ≫= λ dy,
           range_list 0 zl 1 ≫= λ dz, [shifted block dx dy dz])); [done|].
  intros acc dx.
  rewrite (foldl_appending _
    (λ dy, range_list 0 zl 1 ≫= λ dz, [shifted block dx dy dz])); [done|].
  intros acc' dy.
  by rewrite (foldl_appending _ (λ dz, [shifted block dx dy dz])).
Qed.

(** C7: for lengths [xl, yl, zl >= 1], [fill] returns [xl * yl * zl]
    blocks; each is built from an offset [(dx, dy, dz)] inside the box, has
    the location of [block] moved by that offset and the namespace, name,
    state and inventory of [block]; no two of them coincide.  [fill] is a
    function of the value of [block]: nothing in it assigns to [block] or to
    its location. *)
Theorem fill_box (block : Block.t) (xl yl zl : Z) :
  (1 ≤ xl)%Z → (1 ≤ yl)%Z → (1 ≤ zl)%Z →
  len (fill block xl yl zl) = (xl * yl * zl)%Z ∧
  Forall (λ b, ∃ dx dy dz,
            (0 ≤ dx < xl)%Z ∧ (0 ≤ dy < yl)%Z ∧ (0 ≤ dz < zl)%Z ∧
            Block.location b =
              Location.mk (Location.x (Block.location block) + dx)
                          (Location.y (Block.location block) + dy)
                          (Location.z (Block.location block) + dz) ∧
            Block.namespace b = Block.namespace block ∧
            Block.name b = Block.name block ∧
            Block.state b = Block.state block ∧
            Block.inventory b = Block.inventory block)
         (fill block xl yl zl) ∧
  NoDup (fill block xl yl zl).
Proof.
  intros Hx Hy Hz. rewrite fill_unfold. split; [|split].
  - unfold len.
    rewrite (length_bind_const _ (Z.to_nat yl * Z.to_nat zl)).
    + rewrite length_range_list_upto. lia.
    + intros dx. rewrite (length_bind_const _ (Z.to_nat zl)).
      * by rewrite length_range_list_upto.
      * intros dy. rewrite (length_bind_const _ 1); [|done].
        rewrite length_range_list_upto. lia.
  - apply Forall_forall. intros b Hb.
    apply list_elem_of_bind in Hb as (dx & Hb & Hdx).
    apply list_elem_of_bind in Hb as (dy & Hb & Hdy).
    apply list_elem_of_bind in Hb as (dz & Hb & Hdz).
    apply list_elem_of_singleton in Hb as ->.
    apply elem_of_range_list_upto in Hdx, Hdy, Hdz.
    by exists dx, dy, dz.
  - apply NoDup_bind; [| |apply NoDup_range_list_upto].
    + intros dx1 dx2 b _ _ H1 H2.
      apply list_elem_of_bind in H1 as (dy1 & H1 & _).
      apply list_elem_of_bind in H1 as (dz1 & ->%list_elem_of_singleton & _).
      apply list_elem_of_bind in H2 as (dy2 & H2 & _).
      apply list_elem_of_bind in H2 as (dz2 & H2%list_elem_of_singleton & _).
      injection H2. lia.
    + intros dx _. apply NoDup_bind; [| |apply NoDup_range_list_upto].
      * intros dy1 dy2 b _ _ H1 H2.
        apply list_elem_of_bind in H1 as (dz1 & ->%list_elem_of_singleton & _).
        apply list_elem_of_bind in H2 as (dz2 & H2%list_elem_of_singleton & _).
        injection H2. lia.
      * intros dy _. apply NoDup_bind; [| |apply NoDup_range_list_upto].
        -- intros dz1 dz2 b _ _ ->%list_elem_of_singleton
             H2%list_elem_of_singleton.
           injection H2. lia.
        -- intros dz _. apply NoDup_singleton.
Qed.

Lemma fill_box_witness :
  len (fill oak_log_block 2 1 3) = (2 * 1 * 3)%Z ∧
  Forall (λ b, ∃ dx dy dz,
            (0 ≤ dx < 2)%Z ∧ (0 ≤ dy < 1)%Z ∧ (0 ≤ dz < 3)%Z ∧
            Block.location b =
              Location.mk (Location.x (Block.location oak_log_block) + dx)
                          (Location.y (Block.location oak_log_block) + dy)
                          (Location.z (Block.location oak_log_block) + dz) ∧
            Block.namespace b = Block.namespace oak_log_block ∧
            Block.name b = Block.name oak_log_block ∧
            Block.state b = Block.state oak_log_block ∧
            Block.inventory b = Block.inventory oak_log_block)
         (fill oak_log_block 2 1 3) ∧
  NoDup (fill oak_log_block 2 1 3).
Proof. apply (fill_box oak_log_block 2 1 3); lia. Defined.

(** ** Enumerating a region *)

Lemma bind_ret_r {A} (m : outcome A) : bind m Ret = m.
Proof. by destruct m. Qed.

Section ForEach.
Context {A S : Type}.
Implicit Types (body : A → S → outcome S) (acc : S).

Lemma for_each_app xs ys acc body :
  for_each (xs ++ ys) acc body =
  let* acc' := for_each xs acc body in for_each ys acc' body.
Proof.
  revert acc. induction xs as [|x xs IH]; intros acc; [done|].
  simpl. destruct (body x acc); simpl; [apply IH|done].
Qed.

(** Nested loops visit the concatenation of the inner sequences. *)
Lemma for_each_nest {C} (g : C → list A) (inner : C → S → outcome S)
    body (cs : list C) acc :
  (∀ c acc, inner c acc = for_each (g c) acc body) →
  for_each cs acc inner = for_each (cs ≫= g) acc body.
Proof.
  intros Hinner. revert acc. induction cs as [|c cs IH]; intros acc; [done|].
  change ((c :: cs) ≫= g) with (g c ++ (cs ≫= g)).
  rewrite for_each_app. simpl. rewrite Hinner.
  destruct (for_each (g c) acc body); simpl; [apply IH|done].
Qed.

(** Iterations that [continue] at once can be left out. *)
Lemma for_each_filter (P : A → Prop) `{!∀ a, Decision (P a)}
    body body' xs acc :
  (∀ a acc, P a → body a acc = body' a acc) →
  (∀ a acc, ¬ P a → body a acc = Ret acc) →
  for_each xs acc body = for_each (filter P xs) acc body'.
Proof.
  intros Hkeep Hskip. revert acc.
  induction xs as [|x xs IH]; intros acc; [done|].
  destruct (decide (P x)) as [HP|HP].
  - rewrite filter_cons_True by done. simpl. rewrite Hkeep by done.
    destruct (body' x acc); simpl; [apply IH|done].
  - rewrite filter_cons_False by done. simpl. rewrite Hskip by done.
    simpl. apply IH.
Qed.
End ForEach.

Lemma for_each_collect {A B} (f : A → outcome B) (xs : list A) (acc : list B) :
  for_each xs acc (λ a acc, let* b := f a in Ret (acc ++ [b])) =
  let* bs := collect f xs in Ret (acc ++ bs).
Proof.
  revert acc. induction xs as [|x xs IH]; intros acc; simpl.
  - by rewrite app_nil_r.
  - destruct (f x) as [b|e]; simpl; [|done].
    rewrite IH. destruct (collect f xs); simpl; [|done].
    by rewrite <- app_assoc.
Qed.

Lemma collect_Forall2 {A B} (f : A → outcome B) (xs : list A) (bs : list B) :
  collect f xs = Ret bs ↔ Forall2 (λ a b, f a = Ret b) xs bs.
Proof.
  revert bs. induction xs as [|x xs IH]; intros bs; simpl.
  - split; [intros [= <-]; constructor|by intros ->%Forall2_nil_inv_l].
  - split.
    + destruct (f x) as [b|e] eqn:Hb; simpl; [|done].
      destruct (collect f xs) as [bs'|e] eqn:Hbs; simpl; [|done].
      intros [= <-]. constructor; [done|]. by apply IH.
    + intros (b & bs' & Hb & Hbs & ->)%Forall2_cons_inv_l.
      rewrite Hb. simpl. apply IH in Hbs. by rewrite Hbs.
Qed.

Lemma collect_total {A B} (f : A → outcome B) (xs : list A) :
  Forall (λ a, ∃ b, f a = Ret b) xs → ∃ bs, collect f xs = Ret bs.
Proof.
  induction 1 as [|x xs [b Hb] _ [bs Hbs]]; [by exists []|].
  exists (b :: bs). simpl. by rewrite Hb, Hbs.
Qed.

Lemma create_blocks_collect region start default_block_name :
  create_blocks region start default_block_name =
  collect (block_of_cell region start default_block_name)
          (non_air_cells region).
Proof.
  unfold create_blocks, non_air_cells, cells.
  set (body := λ (cell : Z * Z * Z) (blocks : list Block.t),
         if String.eqb (BlockState.id (cell_state region cell)) "minecraft:air"
         then Ret blocks
         else let* block := block_of_cell region start default_block_name cell in
              Ret (blocks ++ [block])).
  rewrite (for_each_nest
             (λ x, Region.yrange region ≫= λ y,
                   Region.zrange region ≫= λ z, [(x, y, z)])
             _ body).
  - rewrite (for_each_filter (λ cell, ¬ is_air (cell_state region cell)) body
               (λ cell blocks,
                  let* block :=
                    block_of_cell region start default_block_name cell in
                  Ret (blocks ++ [block]))).
    + rewrite for_each_collect.
      by destruct (collect _ _).
    + intros cell acc Hcell. unfold body, is_air in *.
      by destruct (String.eqb_spec (BlockState.id (cell_state region cell))
                     "minecraft:air").
    + intros cell acc Hcell. unfold body, is_air in *.
      destruct (String.eqb_spec (BlockState.id (cell_state region cell))
                  "minecraft:air"); [done|].
      exfalso. by apply Hcell.
  - intros x acc.
    apply (for_each_nest (λ y, Region.zrange region ≫= λ z, [(x, y, z)])).
    intros y acc'.
    apply (for_each_nest (λ z, [(x, y, z)])).
    intros z acc''. simpl. unfold body. simpl.
    by rewrite bind_ret_r.
Qed.

Lemma split_colon_nonempty s : split_colon s ≠ [].
Proof. destruct s; simpl; [done|]. by repeat case_match. Qed.

Lemma split_colon_one s piece : split_colon s = [piece] → s = piece.
Proof.
  revert piece. induction s as [|c s IH]; intros piece; simpl.
  - by intros [= <-].
  - destruct (Ascii.eqb c ":").
    + intros [= <- Hrest]. by apply split_colon_nonempty in Hrest.
    + destruct (split_colon s) as [|p ps] eqn:Hs;
        [by apply split_colon_nonempty in Hs|].
      intros [= <- ->]. by rewrite (IH p).
Qed.

Lemma split_colon_two s namespace name :
  split_colon s = [namespace; name] → s = namespace +:+ ":" +:+ name.
Proof.
  revert namespace. induction s as [|c s IH]; intros namespace; simpl; [done|].
  destruct (Ascii.eqb_spec c ":") as [->|_].
  - intros [= <- Hs%split_colon_one]. by rewrite Hs.
  - destruct (split_colon s) as [|p ps]; [done|].
    intros [= <- ->]. simpl. by rewrite (IH p).
Qed.

Lemma state_fold (properties : gmap string string) :
  map_fold (λ k v (state : gmap string string), <[k := v]> state) ∅ properties
  = properties.
Proof.
  apply (map_fold_weak_ind (λ state m, state = m)); [done|].
  by intros k v m state _ ->.
Qed.

Lemma to_block_namespaced block_state location namespace name :
  split_colon (BlockState.id block_state) = [namespace; name] →
  to_block block_state location =
  Ret (Block.mk namespace name location (properties_of block_state) []).
Proof.
  intros Hid. unfold to_block, properties_of. rewrite Hid.
  destruct (BlockState.nbt_properties block_state); simpl; [|done].
  by rewrite state_fold.
Qed.

Example to_block_without_namespace :
  to_block (BlockState.mk "stone" None) origin = Raise ValueError.
Proof. reflexivity. Qed.

Lemma location_of_cell region start default_block_name cell block :
  block_of_cell region start default_block_name cell = Ret block →
  Block.location block = placed region start cell.
Proof.
  unfold block_of_cell, placed, modify_start_location, to_block. simpl.
  destruct default_block_name as [name|].
  - intros [= <-]. simpl. f_equal; lia.
  - repeat case_match; try done. all: intros [= <-]; simpl; f_equal; lia.
Qed.

(** C5: when the identifiers of the cells that are not air have the form
    namespace:name, [create_blocks] returns one block per cell whose
    identifier is not ["minecraft:air"], in iteration order and for no other
    cell; the block's namespace and name joined by a colon are the cell's
    identifier, and its state is the cell's whole property map.  Air cells
    give neither a block nor an exception. *)
Theorem create_blocks_non_air (region : Region.t) (start : Location.t) :
  Forall (λ cell, namespaced (BlockState.id (cell_state region cell)))
         (non_air_cells region) →
  ∃ blocks,
    create_blocks region start None = Ret blocks ∧
    Forall2 (λ cell block,
               cell ∈ cells region ∧
               BlockState.id (cell_state region cell) ≠ "minecraft:air" ∧
               BlockState.id (cell_state region cell)
                 = Block.namespace block +:+ ":" +:+ Block.name block ∧
               Block.state block = properties_of (cell_state region cell))
            (non_air_cells region) blocks.
Proof.
  intros Hids. rewrite create_blocks_collect.
  destruct (collect_total (block_of_cell region start None)
              (non_air_cells region)) as [blocks Hblocks].
  { eapply Forall_impl; [exact Hids|]. intros cell (namespace & name & Hid).
    eexists. unfold block_of_cell. by apply to_block_namespaced. }
  exists blocks. split; [done|].
  apply collect_Forall2 in Hblocks.
  apply Forall2_same_length_lookup. split; [by eapply Forall2_length|].
  intros i cell block Hcell Hblock.
  pose proof (Forall2_lookup_lr _ _ _ _ _ _ Hblocks Hcell Hblock) as Hmake.
  pose proof (Forall_lookup_1 _ _ _ _ Hids Hcell) as (namespace & name & Hid).
  apply list_elem_of_lookup_2, list_elem_of_filter in Hcell as [Hair Hin].
  unfold block_of_cell in Hmake.
  rewrite (to_block_namespaced _ _ _ _ Hid) in Hmake.
  injection Hmake as <-. simpl.
  by apply split_colon_two in Hid.
Qed.

Lemma create_blocks_non_air_witness :
  ∃ blocks,
    create_blocks row_region origin None = Ret blocks ∧
    Forall2 (λ cell block,
               cell ∈ cells row_region ∧
               BlockState.id (cell_state row_region cell) ≠ "minecraft:air" ∧
               BlockState.id (cell_state row_region cell)
                 = Block.namespace block +:+ ":" +:+ Block.name block ∧
               Block.state block
                 = properties_of (cell_state row_region cell))
            (non_air_cells row_region) blocks.
Proof.
  apply (create_blocks_non_air row_region origin).
  repeat constructor; eexists _, _; reflexivity.
Defined.

(** C8: every block that [create_blocks] emits for a cell [(x, y, z)] lies at
    [(s.x + x - min_x - 1, s.y + y - min_y - 1, s.z + z - min_z - 1)],
    whether the block is read from the region or named by the caller: one
    less on every axis than start + (cell - region minimum). *)
Theorem create_blocks_location (region : Region.t) (start : Location.t)
    (default_block_name : option string) (blocks : list Block.t) :
  create_blocks region start default_block_name = Ret blocks →
  Forall2 (λ cell block,
             Block.location block =
             Location.mk
               (Location.x start + cell.1.1 - Region.min_x region - 1)
               (Location.y start + cell.1.2 - Region.min_y region - 1)
               (Location.z start + cell.2 - Region.min_z region - 1))
          (non_air_cells region) blocks.
Proof.
  rewrite create_blocks_collect. intros Hblocks%collect_Forall2.
  eapply Forall2_impl; [exact Hblocks|].
  intros cell block Hmake. by apply location_of_cell in Hmake.
Qed.

Lemma create_blocks_location_witness :
  Forall2 (λ cell block,
             Block.location block =
             Location.mk
               (Location.x origin + cell.1.1 - Region.min_x row_region - 1)
               (Location.y origin + cell.1.2 - Region.min_y row_region - 1)
               (Location.z origin + cell.2 - Region.min_z row_region - 1))
          (non_air_cells row_region)
          [Block.make "air" (Location.mk 9 63 (-6));
           Block.make "air" (Location.mk 11 63 (-6));
           Block.make "air" (Location.mk 12 63 (-6))].
Proof.
  apply (create_blocks_location row_region origin (Some "air")). reflexivity.
Defined.

(** ** The dispatch loop *)

Section Dispatch.
Variable connection : Connection.t.
Variable timeout : Z.
Implicit Types (chunks sent : list (list Block.t))
               (result : option (response (list Block.t))).

Lemma dispatch_cons b chunks result sent :
  dispatch connection timeout (b :: chunks) result sent =
  match Connection.set_blocks connection sent b timeout with
  | Ret r => dispatch connection timeout chunks (Some r) (sent ++ [b])
  | Raise e => (Raise e, sent ++ [b])
  end.
Proof. done. Qed.

(** The first exception ends the loop: the chunks up to the raising one
    were sent, the later ones were not. *)
Lemma dispatch_raises chunks result sent i e :
  (∀ j b, j < i → chunks !! j = Some b →
     ∃ r, Connection.set_blocks connection (sent ++ take j chunks) b timeout
          = Ret r) →
  (∃ b, chunks !! i = Some b ∧
        Connection.set_blocks connection (sent ++ take i chunks) b timeout
        = Raise e) →
  dispatch connection timeout chunks result sent
  = (Raise e, sent ++ take (S i) chunks).
Proof.
  revert result sent i.
  induction chunks as [|b0 chunks IH]; intros result sent i Hbefore Hat.
  { by destruct Hat as (b & ? & _). }
  rewrite dispatch_cons. destruct i as [|i].
  - destruct Hat as (b & [= <-] & Hraise).
    simpl in Hraise. rewrite app_nil_r in Hraise. by rewrite Hraise.
  - destruct (Hbefore 0 b0) as [r Hr]; [lia|done|].
    simpl in Hr. rewrite app_nil_r in Hr. rewrite Hr.
    rewrite (IH _ _ i).
    + by rewrite <- app_assoc.
    + intros j b Hj Hb. rewrite <- app_assoc. apply (Hbefore (S j)); [lia|done].
    + destruct Hat as (b & Hb & Hraise). exists b. split; [done|].
      by rewrite <- app_assoc.
Qed.

(** A loop that came to its end sent every chunk, each call returned, and
    [result] holds the answer to the last chunk. *)
Lemma dispatch_returned chunks result sent res sent' :
  dispatch connection timeout chunks result sent = (Ret res, sent') →
  sent' = sent ++ chunks ∧
  (chunks = [] ∧ res = result ∨
   ∃ init b r, chunks = init ++ [b] ∧ res = Some r ∧
     Connection.set_blocks connection (sent ++ init) b timeout = Ret r).
Proof.
  revert result sent.
  induction chunks as [|b0 chunks IH]; intros result sent.
  { intros [= <- <-]. rewrite app_nil_r. auto. }
  rewrite dispatch_cons.
  destruct (Connection.set_blocks connection sent b0 timeout) as [r0|e]
    eqn:Hr0; [|done].
  intros (-> & Hlast)%IH. split; [by rewrite <- app_assoc|]. right.
  destruct Hlast as [[-> ->]|(init & b & r & -> & -> & Hr)].
  - exists [], b0, r0. by rewrite app_nil_r.
  - exists (b0 :: init), b, r. by rewrite <- app_assoc in Hr.
Qed.

(** While every call returns, whatever its status, the loop goes on to
    the last chunk. *)
Lemma dispatch_all_return chunks result sent :
  (∀ j b, chunks !! j = Some b →
     ∃ r, Connection.set_blocks connection (sent ++ take j chunks) b timeout
          = Ret r) →
  ∃ res, dispatch connection timeout chunks result sent
         = (Ret res, sent ++ chunks).
Proof.
  revert result sent.
  induction chunks as [|b0 chunks IH]; intros result sent Hall.
  { exists result. simpl. by rewrite app_nil_r. }
  rewrite dispatch_cons.
  destruct (Hall 0 b0) as [r Hr]; [done|].
  simpl in Hr. rewrite app_nil_r in Hr. rewrite Hr.
  destruct (IH (Some r) (sent ++ [b0])) as [res Hres].
  - intros j b Hb. rewrite <- app_assoc. by apply (Hall (S j)).
  - exists res. by rewrite Hres, <- app_assoc.
Qed.

(** Whatever happens, the chunks sent are the first chunks of the list. *)
Lemma dispatch_prefix chunks result sent :
  ∃ n, (dispatch connection timeout chunks result sent).2
       = sent ++ take n chunks.
Proof.
  revert result sent.
  induction chunks as [|b0 chunks IH]; intros result sent.
  { exists 0. simpl. by rewrite app_nil_r. }
  rewrite dispatch_cons.
  destruct (Connection.set_blocks connection sent b0 timeout) as [r|e].
  - destruct (IH (Some r) (sent ++ [b0])) as [n Hn].
    exists (S n). by rewrite Hn, <- app_assoc.
  - by exists 1.
Qed.
End Dispatch.

Example create_blocks_row :
  create_blocks row_region origin None
  = Ret [stone_block; oak_log_block; dirt_block].
Proof. vm_compute. reflexivity. Qed.

Example build_row_timeout :
  build_region timeout_on_second row_region origin (Some 1%Z) None []
  = (Raise TimeoutError, [[stone_block]; [oak_log_block]]).
Proof. vm_compute. reflexivity. Qed.

Example build_row_rejected :
  build_region reject_second row_region origin (Some 1%Z) None []
  = (Ret 200%Z, [[stone_block]; [oak_log_block]; [dirt_block]]).
Proof. vm_compute. reflexivity. Qed.

(** ** The bulk operations *)

Lemma split_list_nil {A} (k : Z) :
  split_list (@nil A) k = if (k =? 0)%Z then Raise ValueError else Ret [].
Proof.
  unfold split_list, range, range_list, range_len.
  destruct (Z.eqb_spec k 0); [done|]. by destruct (0 <? k)%Z.
Qed.

Lemma collect_ret {A B} (g : A → B) (xs : list A) :
  collect (λ a, Ret (g a)) xs = Ret (g <$> xs).
Proof. induction xs as [|x xs IH]; simpl; [done|]. by rewrite IH. Qed.

Lemma collect_ext {A B} (f g : A → outcome B) (xs : list A) :
  (∀ a, f a = g a) → collect f xs = collect g xs.
Proof.
  intros Hfg. induction xs as [|x xs IH]; simpl; [done|]. by rewrite Hfg, IH.
Qed.

Lemma block_of_cell_named region start name cell :
  block_of_cell region start (Some name) cell
  = Ret (Block.make name (placed region start cell)).
Proof.
  unfold block_of_cell, placed, modify_start_location. simpl.
  do 2 f_equal. f_equal; lia.
Qed.

Lemma create_blocks_named region start name :
  create_blocks region start (Some name)
  = Ret ((λ cell, Block.make name (placed region start cell))
           <$> non_air_cells region).
Proof.
  rewrite create_blocks_collect, <- collect_ret.
  apply collect_ext, block_of_cell_named.
Qed.

Lemma override_enumerated region start blocks :
  create_blocks region start None = Ret blocks →
  create_blocks region start (Some "air") = Ret (override_to_air <$> blocks).
Proof.
  intros Hblocks. rewrite create_blocks_named. f_equal.
  rewrite create_blocks_collect in Hblocks.
  apply collect_Forall2 in Hblocks.
  induction Hblocks as [|cell block cs bs Hmake _ IH]; [done|].
  rewrite !fmap_cons, IH. f_equal.
  apply location_of_cell in Hmake. unfold override_to_air, Block.make.
  by rewrite Hmake.
Qed.

Lemma run_bulk_set_batch op connection region start split_size timeout
    blocks sent :
  bulk_blocks op region start = Ret blocks →
  run_bulk op connection region start split_size timeout sent
  = set_batch connection blocks split_size timeout sent.
Proof.
  intros Hblocks.
  destruct op; simpl in *; unfold build_region, clear_region, set_batch;
    unfold io_bind at 1, lift at 1; by rewrite Hblocks.
Qed.

Lemma set_batch_chunks connection blocks split_size timeout chunks sent :
  split_list blocks (default 10000%Z split_size) = Ret chunks →
  set_batch connection blocks split_size timeout sent
  = (let! result :=
       dispatch connection (default 300%Z timeout) chunks None in
     return_status result) sent.
Proof.
  intros Hchunks. unfold set_batch.
  unfold io_bind at 1, lift at 1. by rewrite Hchunks.
Qed.

Lemma bulk_blocks_no_cells op region start :
  non_air_cells region = [] → bulk_blocks op region start = Ret [].
Proof.
  intros Hnone. destruct op; simpl; by rewrite create_blocks_collect, Hnone.
Qed.

(** C1, as the code has it: when [set_blocks] raises on a chunk (a timeout,
    say), the loop of [build_region] and [clear_region] stops there: the
    exception leaves the function, the chunks up to the raising one were
    sent and no later chunk is; nothing is returned, so neither a count of
    applied blocks nor the index of the failed chunk is reported.  When
    [set_blocks] returns on every chunk, with whatever status, every chunk
    is sent. *)
Theorem bulk_stops_when_set_blocks_raises (op : bulk)
    (connection : Connection.t) (region : Region.t) (start : Location.t)
    (split_size timeout : option Z) (blocks : list Block.t)
    (chunks : list (list Block.t)) :
  bulk_blocks op region start = Ret blocks →
  split_list blocks (default 10000%Z split_size) = Ret chunks →
  (∀ i e,
     raises_at connection (default 300%Z timeout) chunks i e →
     run_bulk op connection region start split_size timeout []
     = (Raise e, take (S i) chunks)) ∧
  (returns_upto connection (default 300%Z timeout) chunks (length chunks) →
   (run_bulk op connection region start split_size timeout []).2 = chunks).
Proof.
  intros Hblocks Hchunks.
  split.
  - intros i e [Hbefore Hat].
    rewrite (run_bulk_set_batch _ _ _ _ _ _ _ _ Hblocks).
    rewrite (set_batch_chunks _ _ _ _ _ _ Hchunks).
    unfold io_bind.
    by rewrite (dispatch_raises _ _ chunks None [] i e).
  - intros Hall.
    rewrite (run_bulk_set_batch _ _ _ _ _ _ _ _ Hblocks).
    rewrite (set_batch_chunks _ _ _ _ _ _ Hchunks).
    unfold io_bind.
    destruct (dispatch_all_return connection (default 300%Z timeout)
                chunks None []) as [res ->].
    + intros j b Hb. apply Hall; [|done]. by eapply lookup_lt_Some.
    + by destruct res.
Qed.

Lemma bulk_stops_when_set_blocks_raises_witness :
  run_bulk Build timeout_on_second row_region origin (Some 1%Z) None []
  = (Raise TimeoutError, [[stone_block]; [oak_log_block]]).
Proof.
  destruct (bulk_stops_when_set_blocks_raises Build timeout_on_second
              row_region origin (Some 1%Z) None
              [stone_block; oak_log_block; dirt_block]
              [[stone_block]; [oak_log_block]; [dirt_block]])
    as [Hraise _]; [by vm_compute..|].
  apply (Hraise 1 TimeoutError). split.
  - intros j b Hj Hb. destruct j as [|j]; [|lia]. by eexists.
  - by eexists.
Defined.

(** C1 as the spec words it fails: over three blocks with chunk size 1 and a
    timeout on the second chunk, [build_region] returns no result at all. *)
Lemma batch_result_counterexample :
  ¬ ∃ status sent,
      build_region timeout_on_second row_region origin (Some 1%Z) None []
      = (Ret status, sent).
Proof. intros (status & sent & Hrun). by vm_compute in Hrun. Qed.

(** C3, as the code has it: over a region that [create_blocks] can enumerate
    without a default name (no identifier of a cell that is not air makes
    [to_block] raise), [clear_region] is the set-batch that [build_region]
    is, run on the same enumeration with every block overridden to the air
    block (name ["air"], default namespace, no state, no inventory, same
    location): the same splitting, the same dispatch loop, the same
    behaviour on failure. *)
Theorem clear_region_is_set_batch_of_air (region : Region.t)
    (start : Location.t) (blocks : list Block.t) :
  create_blocks region start None = Ret blocks →
  create_blocks region start (Some "air") = Ret (override_to_air <$> blocks) ∧
  ∀ connection split_size timeout sent,
    build_region connection region start split_size timeout sent
    = set_batch connection blocks split_size timeout sent ∧
    clear_region connection region start split_size timeout sent
    = set_batch connection (override_to_air <$> blocks) split_size timeout
        sent ∧
    clear_region connection region start split_size timeout sent
    = clear_as_set_batch connection region start split_size timeout sent.
Proof.
  intros Hblocks.
  pose proof (override_enumerated _ _ _ Hblocks) as Hair.
  split; [done|]. intros connection split_size timeout sent.
  split; [|split].
  - by apply (run_bulk_set_batch Build).
  - by apply (run_bulk_set_batch Clear).
  - rewrite (run_bulk_set_batch Clear _ _ _ _ _ _ _ Hair).
    unfold clear_as_set_batch, io_bind at 1, lift at 1. by rewrite Hblocks.
Qed.

Lemma clear_region_is_set_batch_of_air_witness :
  create_blocks row_region origin (Some "air")
  = Ret (override_to_air <$> [stone_block; oak_log_block; dirt_block]) ∧
  ∀ connection split_size timeout sent,
    build_region connection row_region origin split_size timeout sent
    = set_batch connection [stone_block; oak_log_block; dirt_block]
        split_size timeout sent ∧
    clear_region connection row_region origin split_size timeout sent
    = set_batch connection
        (override_to_air <$> [stone_block; oak_log_block; dirt_block])
        split_size timeout sent ∧
    clear_region connection row_region origin split_size timeout sent
    = clear_as_set_batch connection row_region origin split_size timeout sent.
Proof.
  apply (clear_region_is_set_batch_of_air row_region origin
           [stone_block; oak_log_block; dirt_block]).
  by vm_compute.
Defined.

(** C3 for every region fails: over a region with a cell whose identifier
    has no namespace, [build_region] raises [ValueError] and sends nothing,
    while [clear_region], which never reads the identifier of a cell that
    is not air, sends its air blocks and returns the status 200; it is not
    the set-batch of the overridden enumeration, which raises. *)
Lemma clear_region_counterexample :
  build_region always_ok bare_region origin None None []
  = (Raise ValueError, []) ∧
  clear_region always_ok bare_region origin None None []
  = (Ret 200%Z,
     [[Block.make "air" (Location.mk 9 63 (-6));
       Block.make "air" (Location.mk 10 63 (-6))]]) ∧
  clear_region always_ok bare_region origin None None []
  ≠ clear_as_set_batch always_ok bare_region origin None None [].
Proof.
  split; [by vm_compute|]. split; [by vm_compute|].
  intros Hsame. by vm_compute in Hsame.
Qed.

(** C6: when the caller gives no chunk size, [build_region] and
    [clear_region] split their blocks with size 10 000: the loop runs over
    chunks of at most 10 000 blocks whose concatenation, in order, is the
    block list, and the chunks sent are the first chunks of that split. *)
Theorem default_chunk_size (op : bulk) (connection : Connection.t)
    (region : Region.t) (start : Location.t) (timeout : option Z)
    (blocks : list Block.t) :
  bulk_blocks op region start = Ret blocks →
  ∃ chunks,
    split_list blocks 10000 = Ret chunks ∧
    Forall (λ chunk, (len chunk ≤ 10000)%Z) chunks ∧
    concat chunks = blocks ∧
    run_bulk op connection region start None timeout []
    = (let! result :=
         dispatch connection (default 300%Z timeout) chunks None in
       return_status result) [] ∧
    (run_bulk op connection region start None timeout []).2
      `prefix_of` chunks.
Proof.
  intros Hblocks.
  destruct (split_list_partition blocks 10000 ltac:(lia))
    as (chunks & Hchunks & _ & Hsize & Hconcat).
  exists chunks. split; [done|]. split; [done|]. split; [done|].
  rewrite (run_bulk_set_batch _ _ _ _ _ _ _ _ Hblocks).
  rewrite (set_batch_chunks _ _ None _ _ _ Hchunks).
  split; [done|]. unfold io_bind.
  destruct (dispatch_prefix connection (default 300%Z timeout) chunks None [])
    as [n Hn].
  destruct (dispatch _ _ _ _ _) as [[res|e] sent']; simpl in *; subst sent'.
  - destruct res; apply prefix_take.
  - apply prefix_take.
Qed.

Lemma default_chunk_size_witness :
  ∃ chunks,
    split_list [stone_block; oak_log_block; dirt_block] 10000 = Ret chunks ∧
    Forall (λ chunk, (len chunk ≤ 10000)%Z) chunks ∧
    concat chunks = [stone_block; oak_log_block; dirt_block] ∧
    run_bulk Build always_ok row_region origin None None []
    = (let! result := dispatch always_ok (default 300%Z None) chunks None in
       return_status result) [] ∧
    (run_bulk Build always_ok row_region origin None None []).2
      `prefix_of` chunks.
Proof.
  apply (default_chunk_size Build always_ok row_region origin None
           [stone_block; oak_log_block; dirt_block]).
  by vm_compute.
Defined.

(** C9: when [build_region] or [clear_region] returns a status, at least one
    chunk was sent and the status is the one [set_blocks] answered for the
    last chunk sent, whatever the earlier answers were; over a region with
    no cell other than air the block list is empty, no chunk is sent, and
    the operation raises instead of returning: the [return result[0]] reads
    the unassigned [result] (with a chunk size of 0 the range of
    [split_list] raises before that). *)
Theorem bulk_returns_last_status (op : bulk) (connection : Connection.t)
    (region : Region.t) (start : Location.t) (split_size timeout : option Z) :
  (∀ status sent,
     run_bulk op connection region start split_size timeout []
     = (Ret status, sent) →
     ∃ earlier last payload,
       sent = earlier ++ [last] ∧
       Connection.set_blocks connection earlier last (default 300%Z timeout)
       = Ret (status, payload)) ∧
  (non_air_cells region = [] →
   run_bulk op connection region start split_size timeout []
   = (Raise (if (default 10000 split_size =? 0)%Z
             then ValueError else UnboundLocalError), [])).
Proof.
  split.
  - intros status sent Hrun.
    destruct (bulk_blocks op region start) as [blocks|e] eqn:Hblocks.
    2: { destruct op; simpl in *;
         unfold build_region, clear_region, io_bind, lift in Hrun;
         by rewrite Hblocks in Hrun. }
    rewrite (run_bulk_set_batch _ _ _ _ _ _ _ _ Hblocks) in Hrun.
    destruct (split_list blocks (default 10000%Z split_size))
      as [chunks|e] eqn:Hchunks.
    2: { unfold set_batch, io_bind, lift in Hrun. by rewrite Hchunks in Hrun. }
    rewrite (set_batch_chunks _ _ _ _ _ _ Hchunks) in Hrun.
    unfold io_bind in Hrun.
    destruct (dispatch _ _ _ _ _) as [[res|e] sent'] eqn:Hloop; [|done].
    apply dispatch_returned in Hloop as [-> Hlast].
    destruct Hlast as [[-> ->]|(earlier & last & [st payload] & -> & -> & Hr)];
      [done|].
    injection Hrun as <- <-. by exists earlier, last, payload.
  - intros Hnone.
    rewrite (run_bulk_set_batch _ _ _ _ _ _ _ _
               (bulk_blocks_no_cells op region start Hnone)).
    unfold set_batch, io_bind, lift. rewrite split_list_nil.
    by destruct (default 10000 split_size =? 0)%Z.
Qed.

Lemma bulk_returns_last_status_witness :
  (∃ earlier last payload,
     [[stone_block; oak_log_block]; [dirt_block]] = earlier ++ [last] ∧
     Connection.set_blocks reject_second earlier last 300
     = Ret (500%Z, payload)) ∧
  run_bulk Clear always_ok air_region origin None None []
  = (Raise UnboundLocalError, []).
Proof.
  split.
  - apply (proj1 (bulk_returns_last_status Build reject_second row_region
                    origin (Some 2%Z) None)).
    by vm_compute.
  - apply (proj2 (bulk_returns_last_status Clear always_ok air_region
                    origin None None)).
    by vm_compute.
Defined.

(** C4: each of the four core operations returns every answer of the
    server, a rejection included, as a pair whose element 0 is the status
    code and whose element 1 is the payload (the message, the applied
    blocks, the blocks read, the player list), and raises only when the
    credentials are refused or the transport is lost. *)
Theorem core_operations_report_through_status (s : Core.server) :
  reports_through_status (Core.execute_commands s) (Core.on_execute_command s) ∧
  reports_through_status (λ req, Core.set_blocks s req.1 req.2)
                         (λ req, Core.on_set_blocks s req.1 req.2) ∧
  reports_through_status (Core.get_blocks s) (Core.on_get_blocks s) ∧
  reports_through_status (Core.get_players s) (Core.on_get_players s).
Proof.
  assert (∀ Req P (serve : Req → Core.exchange P),
            reports_through_status (λ req, Core.deliver (serve req)) serve)
    as Hdeliver.
  { intros Req P serve req. split.
    - intros status payload ->. by eexists.
    - intros e. destruct (serve req); simpl; [done| |]; intros [= <-]; auto. }
  repeat split; apply Hdeliver.
Qed.

Lemma core_operations_report_through_status_witness :
  ∃ r, Core.execute_commands sample_server "say hello world!" = Ret r ∧
       r.1 = 403%Z ∧ r.2 = "forbidden".
Proof.
  destruct (core_operations_report_through_status sample_server)
    as [Hexecute _].
  apply (Hexecute "say hello world!"). reflexivity.
Defined.

(** * Further properties *)

(** ** split_list *)

Lemma split_list_lookup {A} (l : list A) (k : Z) chunks (i : nat) chunk :
  (1 ≤ k)%Z →
  split_list l k = Ret chunks →
  chunks !! i = Some chunk →
  (i < Z.to_nat (ceil_div (len l) k))%nat ∧
  chunk = take (Z.to_nat k) (drop (i * Z.to_nat k) l).
Proof.
  intros Hk Hsplit Hi. rewrite split_list_unfold in Hsplit by done.
  injection Hsplit as <-.
  change (map ?f ?xs) with (f <$> xs) in Hi.
  apply list_lookup_fmap_Some in Hi as (j & -> & Hj).
  apply lookup_seq in Hj as [-> Hlt]. done.
Qed.

Lemma chunk_start_in_range (n k : Z) (i : nat) :
  (1 ≤ k)%Z → (0 ≤ n)%Z →
  (i < Z.to_nat (ceil_div n k))%nat →
  (Z.of_nat i * k < n)%Z.
Proof.
  intros Hk Hn Hi. pose proof (ceil_div_bounds n k Hk Hn). nia.
Qed.

(** X1: for a chunk size [k >= 1], no chunk of [split_list] is empty, and
    every chunk but the last has exactly [k] elements: only the last chunk
    can be short. *)
Theorem split_list_chunk_sizes {A} (l : list A) (k : Z)
    (chunks : list (list A)) :
  (1 ≤ k)%Z →
  split_list l k = Ret chunks →
  Forall (λ chunk, chunk ≠ []) chunks ∧
  ∀ i chunk,
    (S i < length chunks)%nat → chunks !! i = Some chunk → len chunk = k.
Proof.
  intros Hk Hsplit.
  assert (length chunks = Z.to_nat (ceil_div (len l) k)) as Hlen.
  { rewrite split_list_unfold in Hsplit by done. injection Hsplit as <-.
    by rewrite List.length_map, List.length_seq. }
  split.
  - apply Forall_lookup. intros i chunk Hi.
    destruct (split_list_lookup l k chunks i chunk Hk Hsplit Hi) as [Hlt ->].
    pose proof (chunk_start_in_range (len l) k i Hk
                  ltac:(unfold len; lia) Hlt) as Hstart.
    intros Hnil%(f_equal length). rewrite length_take, length_drop in Hnil.
    simpl in Hnil. unfold len in *. nia.
  - intros i chunk Hnext Hi.
    destruct (split_list_lookup l k chunks i chunk Hk Hsplit Hi) as [_ ->].
    pose proof (chunk_start_in_range (len l) k (S i) Hk
                  ltac:(unfold len; lia) ltac:(lia)) as Hstart.
    unfold len in *. rewrite length_take, length_drop. nia.
Qed.

Lemma split_list_chunk_sizes_witness :
  Forall (λ chunk, chunk ≠ []) [[1; 2]; [3; 4]; [5]]%Z ∧
  ∀ i chunk,
    (S i < length [[1; 2]; [3; 4]; [5]]%Z)%nat →
    [[1; 2]; [3; 4]; [5]]%Z !! i = Some chunk → len chunk = 2%Z.
Proof.
  apply (split_list_chunk_sizes [1; 2; 3; 4; 5]%Z 2); [lia|reflexivity].
Defined.

(** X2: for a chunk size [k >= 1], element [j] of chunk [i] is element
    [i * k + j] of the list: chunk [i] is the window [l[i*k : i*k + k]]. *)
Theorem split_list_index {A} (l : list A) (k : Z) (chunks : list (list A))
    (i j : nat) (chunk : list A) :
  (1 ≤ k)%Z →
  split_list l k = Ret chunks →
  chunks !! i = Some chunk →
  (Z.of_nat j < k)%Z →
  chunk !! j = l !! (i * Z.to_nat k + j)%nat.
Proof.
  intros Hk Hsplit Hi Hj.
  destruct (split_list_lookup l k chunks i chunk Hk Hsplit Hi) as [_ ->].
  rewrite lookup_take_lt by lia. by rewrite lookup_drop.
Qed.

Lemma split_list_index_witness :
  [3; 4]%Z !! 1%nat = [1; 2; 3; 4; 5]%Z !! (1 * Z.to_nat 2 + 1)%nat.
Proof.
  apply (split_list_index [1; 2; 3; 4; 5]%Z 2 [[1; 2]; [3; 4]; [5]]%Z 1 1);
    [lia|reflexivity|reflexivity|lia].
Defined.

(** X3: a list that fits into one chunk is not split: for [k >= 1] and
    [len(l) <= k], [split_list] returns the list itself as its only chunk,
    and no chunk at all when the list is empty. *)
Theorem split_list_fits {A} (l : list A) (k : Z) :
  (1 ≤ k)%Z → (len l ≤ k)%Z →
  split_list l k = Ret (if decide (l = []) then [] else [l]).
Proof.
  intros Hk Hfit. rewrite split_list_unfold by done.
  pose proof (ceil_div_bounds (len l) k Hk ltac:(unfold len; lia)) as Hc.
  destruct (decide (l = [])) as [->|Hne].
  - unfold ceil_div, len. simpl. by rewrite Z.div_small by lia.
  - assert (0 < len l)%Z by (destruct l; [done|unfold len; simpl; lia]).
    assert (ceil_div (len l) k = 1%Z) as ->.
    { revert Hc. generalize (ceil_div (len l) k). intros c Hc.
      assert (0 < c)%Z by nia.
      destruct (Z.lt_ge_cases c 2) as [|Hbig]; [lia|].
      assert (k * 1 ≤ k * (c - 1))%Z
        by (apply Z.mul_le_mono_nonneg_l; lia).
      lia. }
    simpl. rewrite take_ge; [done|]. unfold len in *. simpl.
    clear Hc. change (drop 0 l) with l. lia.
Qed.

Lemma split_list_fits_witness :
  split_list ["a"; "b"] 10000
  = Ret (if decide (["a"; "b"] = []) then [] else [["a"; "b"]]).
Proof. apply (split_list_fits ["a"; "b"] 10000); unfold len; simpl; lia. Defined.



(** ** to_block *)

Lemma length_split_colon s : length (split_colon s) = S (count_colons s).
Proof.
  induction s as [|c s IH]; simpl; [done|].
  destruct (Ascii.eqb c ":"); simpl; [by rewrite IH|].
  destruct (split_colon s); simpl in *; [done|lia].
Qed.

Lemma split_colon_pieces s :
  Forall (λ piece, count_colons piece = 0) (split_colon s).
Proof.
  induction s as [|c s IH]; simpl; [by repeat constructor|].
  destruct (Ascii.eqb c ":") eqn:Hc; [by constructor|].
  destruct (split_colon s) as [|piece pieces]; simpl.
  - repeat constructor. simpl. by rewrite Hc.
  - inversion_clear IH as [|?? Hpiece Hpieces].
    constructor; [|done]. simpl. by rewrite Hc.
Qed.

Lemma split_colon_plain s : count_colons s = 0 → split_colon s = [s].
Proof.
  induction s as [|c s IH]; simpl; [done|].
  destruct (Ascii.eqb c ":"); [done|]. intros Hs. by rewrite IH.
Qed.

Lemma split_colon_joined namespace name :
  count_colons namespace = 0 → count_colons name = 0 →
  split_colon (namespace +:+ ":" +:+ name) = [namespace; name].
Proof.
  intros Hns Hname. induction namespace as [|c s IH]; simpl in *.
  - by rewrite split_colon_plain.
  - destruct (Ascii.eqb c ":"); [done|]. by rewrite IH.
Qed.

(** X5: [to_block] returns a block when the identifier of the block state
    has exactly one colon, and raises [ValueError] on every other
    identifier: one without a namespace, or one with a second colon. *)
Theorem to_block_needs_one_colon (block_state : BlockState.t)
    (location : Location.t) :
  (count_colons (BlockState.id block_state) = 1 →
   ∃ block, to_block block_state location = Ret block) ∧
  (count_colons (BlockState.id block_state) ≠ 1 →
   to_block block_state location = Raise ValueError).
Proof.
  pose proof (length_split_colon (BlockState.id block_state)) as Hlen.
  unfold to_block.
  destruct (split_colon (BlockState.id block_state))
    as [|namespace [|name [|third pieces]]]; simpl in Hlen.
  - lia.
  - split; [lia|done].
  - split; [by eexists|lia].
  - split; [lia|done].
Qed.

Lemma to_block_needs_one_colon_witness :
  (∃ block, to_block oak_log origin = Ret block) ∧
  to_block (BlockState.mk "mod:ores:tin" None) origin = Raise ValueError.
Proof.
  split.
  - apply (proj1 (to_block_needs_one_colon oak_log origin)). reflexivity.
  - apply (proj2 (to_block_needs_one_colon
                    (BlockState.mk "mod:ores:tin" None) origin)).
    simpl. lia.
Defined.

(** X6: a block that [to_block] returns spells the identifier: its
    namespace and its name hold no colon and, joined by one, give the
    identifier back; it lies at the location handed in, its state is the
    property map of the block state, and its inventory is empty. *)
Theorem to_block_decodes (block_state : BlockState.t) (location : Location.t)
    (block : Block.t) :
  to_block block_state location = Ret block →
  BlockState.id block_state
    = Block.namespace block +:+ ":" +:+ Block.name block ∧
  count_colons (Block.namespace block) = 0 ∧
  count_colons (Block.name block) = 0 ∧
  Block.location block = location ∧
  Block.state block = properties_of block_state ∧
  Block.inventory block = [].
Proof.
  intros Hblock.
  pose proof (split_colon_pieces (BlockState.id block_state)) as Hpieces.
  unfold to_block in Hblock.
  destruct (split_colon (BlockState.id block_state))
    as [|namespace [|name [|third pieces]]] eqn:Hid; try done.
  injection Hblock as <-. simpl.
  apply Forall_cons in Hpieces as [Hns Hname%Forall_cons_1].
  destruct Hname as [Hname _].
  repeat split; try done.
  - by apply split_colon_two.
  - unfold properties_of.
    destruct (BlockState.nbt_properties block_state); simpl; [|done].
    apply state_fold.
Qed.

Lemma to_block_decodes_witness :
  BlockState.id oak_log
    = Block.namespace oak_log_block +:+ ":" +:+ Block.name oak_log_block ∧
  count_colons (Block.namespace oak_log_block) = 0 ∧
  count_colons (Block.name oak_log_block) = 0 ∧
  Block.location oak_log_block = Location.mk 11 63 (-6) ∧
  Block.state oak_log_block = properties_of oak_log ∧
  Block.inventory oak_log_block = [].
Proof.
  apply (to_block_decodes oak_log (Location.mk 11 63 (-6)) oak_log_block).
  by vm_compute.
Defined.

(** X7: [to_block] undoes the joining of a namespace and a name: when
    neither holds a colon, the block made of the identifier
    namespace:name has that namespace and that name, the location handed
    in, the properties as its state and no inventory. *)
Theorem to_block_of_joined (namespace name : string)
    (properties : option (gmap string string)) (location : Location.t) :
  count_colons namespace = 0 → count_colons name = 0 →
  to_block (BlockState.mk (namespace +:+ ":" +:+ name) properties) location
  = Ret (Block.mk namespace name location (default ∅ properties) []).
Proof.
  intros Hns Hname.
  by apply to_block_namespaced, split_colon_joined.
Qed.

Lemma to_block_of_joined_witness :
  to_block (BlockState.mk ("minecraft" +:+ ":" +:+ "chest")
                          (Some {[ "facing" := "north" ]})) origin
  = Ret (Block.mk "minecraft" "chest" origin
                  (default ∅ (Some {[ "facing" := "north" ]})) []).
Proof. by apply (to_block_of_joined "minecraft" "chest"). Defined.

(** ** create_blocks *)

Lemma collect_raises {A B} (f : A → outcome B) (xs : list A) (e0 : exn) :
  (∀ a e, f a = Raise e → e = e0) →
  Exists (λ a, ∃ e, f a = Raise e) xs →
  collect f xs = Raise e0.
Proof.
  intros Honly. induction 1 as [x xs [e He]|x xs _ IH]; simpl.
  - rewrite He. simpl. by rewrite (Honly _ _ He).
  - destruct (f x) as [b|e] eqn:Hx; simpl.
    + by rewrite IH.
    + by rewrite (Honly _ _ Hx).
Qed.

Lemma collect_map {A B} (f f' : A → outcome B) (g : B → B) (xs : list A) :
  (∀ a, f' a = let* b := f a in Ret (g b)) →
  collect f' xs = let* bs := collect f xs in Ret (g <$> bs).
Proof.
  intros Hf. induction xs as [|x xs IH]; simpl; [done|].
  rewrite Hf, IH. destruct (f x); simpl; [|done].
  by destruct (collect f xs).
Qed.

Lemma length_cells region :
  length (cells region)
  = (length (Region.xrange region) * (length (Region.yrange region)
     * length (Region.zrange region)))%nat.
Proof.
  unfold cells.
  rewrite (length_bind_const _ (length (Region.yrange region)
                                * length (Region.zrange region))); [done|].
  intros x. rewrite (length_bind_const _ (length (Region.zrange region)));
    [done|].
  intros y. rewrite (length_bind_const _ 1); [lia|done].
Qed.

Lemma NoDup_cells region :
  NoDup (Region.xrange region) → NoDup (Region.yrange region) →
  NoDup (Region.zrange region) → NoDup (cells region).
Proof.
  intros Hx Hy Hz. unfold cells. apply NoDup_bind; [| |done].
  - intros x1 x2 cell _ _ H1 H2.
    apply list_elem_of_bind in H1 as (y1 & H1 & _).
    apply list_elem_of_bind in H1 as (z1 & ->%list_elem_of_singleton & _).
    apply list_elem_of_bind in H2 as (y2 & H2 & _).
    apply list_elem_of_bind in H2 as (z2 & H2%list_elem_of_singleton & _).
    congruence.
  - intros x _. apply NoDup_bind; [| |done].
    + intros y1 y2 cell _ _ H1 H2.
      apply list_elem_of_bind in H1 as (z1 & ->%list_elem_of_singleton & _).
      apply list_elem_of_bind in H2 as (z2 & H2%list_elem_of_singleton & _).
      congruence.
    + intros y _. apply NoDup_bind; [| |done].
      * intros z1 z2 cell _ _ ->%list_elem_of_singleton
          H2%list_elem_of_singleton.
        congruence.
      * intros z _. apply NoDup_singleton.
Qed.

Lemma create_blocks_locations region start default_block_name blocks :
  create_blocks region start default_block_name = Ret blocks →
  Block.location <$> blocks = placed region start <$> non_air_cells region.
Proof.
  rewrite create_blocks_collect. intros Hblocks%collect_Forall2.
  induction Hblocks as [|cell block cs bs Hmake _ IH]; [done|].
  rewrite !fmap_cons, IH. f_equal. by apply location_of_cell in Hmake.
Qed.

(** X8: with a [default_block_name], [create_blocks] never raises, whatever
    the identifiers of the region look like: it returns one block per cell
    that is not air, each with the default namespace, the given name, no
    state and no inventory. *)
Theorem create_blocks_named_never_raises (region : Region.t)
    (start : Location.t) (name : string) :
  ∃ blocks,
    create_blocks region start (Some name) = Ret blocks ∧
    length blocks = length (non_air_cells region) ∧
    Forall (λ block,
              Block.namespace block = "minecraft" ∧
              Block.name block = name ∧
              Block.state block = ∅ ∧
              Block.inventory block = [])
           blocks.
Proof.
  eexists. split; [apply create_blocks_named|].
  split; [by rewrite length_fmap|].
  apply Forall_fmap, Forall_true. by intros cell.
Qed.

Lemma create_blocks_bad_identifier region start :
  Exists (λ cell, count_colons (BlockState.id (cell_state region cell)) ≠ 1)
         (non_air_cells region) →
  create_blocks region start None = Raise ValueError.
Proof.
  intros Hbad. rewrite create_blocks_collect. apply collect_raises.
  - intros cell e. unfold block_of_cell, to_block.
    repeat case_match; try done. all: by intros [= <-].
  - eapply Exists_impl; [exact Hbad|]. intros cell Hcell.
    exists ValueError. unfold block_of_cell.
    pose proof (length_split_colon (BlockState.id (cell_state region cell))).
    unfold to_block.
    destruct (split_colon _) as [|? [|? [|? ?]]]; simpl in *; try done. lia.
Qed.

(** X9: without a [default_block_name], one cell that is not air and whose
    identifier does not have exactly one colon makes [create_blocks] raise
    [ValueError]: no block list is returned, not even for the cells before
    it. *)
Theorem create_blocks_rejects_identifier (region : Region.t)
    (start : Location.t) :
  Exists (λ cell, count_colons (BlockState.id (cell_state region cell)) ≠ 1)
         (non_air_cells region) →
  create_blocks region start None = Raise ValueError.
Proof. apply create_blocks_bad_identifier. Qed.

Lemma create_blocks_rejects_identifier_witness :
  create_blocks bare_region origin None = Raise ValueError.
Proof.
  apply (create_blocks_rejects_identifier bare_region origin).
  apply Exists_cons_tl, Exists_cons_hd. simpl. lia.
Defined.

(** X10: [create_blocks] returns as many blocks as the region has cells that
    are not air, at most one per cell of the three ranges. *)
Theorem create_blocks_count (region : Region.t) (start : Location.t)
    (default_block_name : option string) (blocks : list Block.t) :
  create_blocks region start default_block_name = Ret blocks →
  length blocks = length (non_air_cells region) ∧
  (length blocks ≤ length (Region.xrange region)
                   * (length (Region.yrange region)
                      * length (Region.zrange region)))%nat.
Proof.
  rewrite create_blocks_collect. intros Hblocks%collect_Forall2.
  apply Forall2_length in Hblocks. split; [done|].
  rewrite <- Hblocks, <- length_cells. apply length_filter.
Qed.

Lemma create_blocks_count_witness :
  length [stone_block; oak_log_block; dirt_block]
  = length (non_air_cells row_region) ∧
  (length [stone_block; oak_log_block; dirt_block]
   ≤ length (Region.xrange row_region)
     * (length (Region.yrange row_region)
        * length (Region.zrange row_region)))%nat.
Proof.
  apply (create_blocks_count row_region origin None). by vm_compute.
Defined.

(** X11: when no range of the region lists a coordinate twice, the blocks
    of [create_blocks] lie at pairwise different locations: no block of the
    list overwrites another. *)
Theorem create_blocks_distinct_locations (region : Region.t)
    (start : Location.t) (default_block_name : option string)
    (blocks : list Block.t) :
  NoDup (Region.xrange region) → NoDup (Region.yrange region) →
  NoDup (Region.zrange region) →
  create_blocks region start default_block_name = Ret blocks →
  NoDup (Block.location <$> blocks).
Proof.
  intros Hx Hy Hz Hblocks.
  rewrite (create_blocks_locations _ _ _ _ Hblocks).
  apply NoDup_fmap_2_strong.
  - intros [[x1 y1] z1] [[x2 y2] z2] _ _. unfold placed. simpl.
    intros [= ? ? ?]. repeat f_equal; lia.
  - by apply NoDup_filter, NoDup_cells.
Qed.

Lemma create_blocks_distinct_locations_witness :
  NoDup (Block.location <$> [stone_block; oak_log_block; dirt_block]).
Proof.
  apply (create_blocks_distinct_locations row_region origin None);
    [by apply (bool_decide_unpack _).. | by vm_compute].
Defined.

Lemma to_block_moved block_state location dx dy dz :
  to_block block_state (moved location dx dy dz)
  = let* block := to_block block_state location in
    Ret (shifted block dx dy dz).
Proof. unfold to_block. by repeat case_match. Qed.

(** X12: moving the start location moves the build and changes nothing
    else: [create_blocks] from a start moved by [(dx, dy, dz)] returns the
    blocks it returns from the start itself, each moved by [(dx, dy, dz)],
    and raises when it raises from the start itself. *)
Theorem create_blocks_moves_with_start (region : Region.t)
    (start : Location.t) (default_block_name : option string) (dx dy dz : Z) :
  create_blocks region (moved start dx dy dz) default_block_name
  = let* blocks := create_blocks region start default_block_name in
    Ret ((λ block, shifted block dx dy dz) <$> blocks).
Proof.
  rewrite !create_blocks_collect. apply collect_map. intros cell.
  unfold block_of_cell, modify_start_location. simpl.
  destruct default_block_name as [name|]; simpl.
  - unfold Block.make, shifted. simpl. do 2 f_equal. f_equal; lia.
  - rewrite <- to_block_moved. f_equal. unfold moved. simpl. f_equal; lia.
Qed.

(** ** fill *)

Lemma range_list_upto_empty n : (n ≤ 0)%Z → range_list 0 n 1 = [].
Proof.
  intros Hn. rewrite range_list_upto. by replace (Z.to_nat n) with 0%nat by lia.
Qed.

Lemma bind_nothing {A B} (l : list A) : l ≫= (λ _, @nil B) = [].
Proof. induction l as [|x l IH]; [done|]. exact IH. Qed.

Lemma range_list_upto_app a c :
  (0 ≤ a)%Z → (0 ≤ c)%Z →
  range_list 0 (a + c) 1
  = range_list 0 a 1 ++ (Z.add a <$> range_list 0 c 1).
Proof.
  intros Ha Hc. rewrite !range_list_upto.
  replace (Z.to_nat (a + c)) with (Z.to_nat a + Z.to_nat c)%nat by lia.
  rewrite List.seq_app, List.map_app. f_equal. simpl.
  rewrite <- (Nat.add_0_r (Z.to_nat a)) at 1. rewrite <- fmap_add_seq.
  change (map Z.of_nat) with (fmap (M:=list) Z.of_nat).
  rewrite <- !list_fmap_compose. apply list_fmap_ext. intros _ i _. simpl. lia.
Qed.

Lemma shifted_shifted block a dx dy dz :
  shifted (shifted block a 0 0) dx dy dz = shifted block (a + dx) dy dz.
Proof. unfold shifted. simpl. do 2 f_equal; lia. Qed.

Lemma elem_of_fill block xl yl zl b :
  b ∈ fill block xl yl zl ↔
  ∃ dx dy dz, (0 ≤ dx < xl)%Z ∧ (0 ≤ dy < yl)%Z ∧ (0 ≤ dz < zl)%Z ∧
              b = shifted block dx dy dz.
Proof.
  rewrite fill_unfold. split.
  - intros Hb.
    apply list_elem_of_bind in Hb as (dx & Hb & Hdx).
    apply list_elem_of_bind in Hb as (dy & Hb & Hdy).
    apply list_elem_of_bind in Hb as (dz & Hb & Hdz).
    apply list_elem_of_singleton in Hb as ->.
    apply elem_of_range_list_upto in Hdx, Hdy, Hdz.
    by exists dx, dy, dz.
  - intros (dx & dy & dz & Hdx & Hdy & Hdz & ->).
    apply list_elem_of_bind. exists dx.
    split; [|by apply elem_of_range_list_upto].
    apply list_elem_of_bind. exists dy.
    split; [|by apply elem_of_range_list_upto].
    apply list_elem_of_bind. exists dz.
    split; [|by apply elem_of_range_list_upto].
    by apply list_elem_of_singleton.
Qed.

Lemma fill_as_triples block xl yl zl :
  fill block xl yl zl
  = (λ cell : Z * Z * Z, shifted block cell.1.1 cell.1.2 cell.2)
    <$> (range_list 0 xl 1 ≫= λ dx,
         range_list 0 yl 1 ≫= λ dy,
         range_list 0 zl 1 ≫= λ dz, [(dx, dy, dz)]).
Proof.
  rewrite fill_unfold.
  induction (range_list 0 xl 1) as [|dx xs IHx]; [done|].
  change ((dx :: xs) ≫= ?f) with (f dx ++ (xs ≫= f)).
  rewrite fmap_app, IHx. f_equal. clear IHx.
  induction (range_list 0 yl 1) as [|dy ys IHy]; [done|].
  change ((dy :: ys) ≫= ?f) with (f dy ++ (ys ≫= f)).
  rewrite fmap_app, IHy. f_equal. clear IHy.
  induction (range_list 0 zl 1) as [|dz zs IHz]; [done|].
  change ((dz :: zs) ≫= ?f) with (f dz ++ (zs ≫= f)).
  by rewrite fmap_app, IHz.
Qed.

(** X13: [fill] with a length of zero or less on any axis returns the empty
    list: no block, and no exception. *)
Theorem fill_empty_box (block : Block.t) (xl yl zl : Z) :
  (xl ≤ 0)%Z ∨ (yl ≤ 0)%Z ∨ (zl ≤ 0)%Z →
  fill block xl yl zl = [].
Proof.
  intros Hlen. rewrite fill_unfold.
  destruct Hlen as [Hx|[Hy|Hz]].
  - by rewrite (range_list_upto_empty xl).
  - rewrite (range_list_upto_empty yl) by done. apply bind_nothing.
  - rewrite (range_list_upto_empty zl) by done.
    transitivity (range_list 0 xl 1 ≫= λ _, @nil Block.t);
      [|apply bind_nothing].
    apply list_bind_ext; [|done]. intros dx. apply bind_nothing.
Qed.

Lemma fill_empty_box_witness : fill stone_block 4 (-1) 4 = [].
Proof. apply (fill_empty_box stone_block 4 (-1) 4). lia. Defined.

(** X14: [fill] covers the box: a block is in the list exactly when it is
    [block] moved by an offset [(dx, dy, dz)] with [0 <= dx < xl],
    [0 <= dy < yl] and [0 <= dz < zl], so every cell of the box gets its
    block and no cell outside does. *)
Theorem fill_covers_box (block : Block.t) (xl yl zl : Z) (b : Block.t) :
  b ∈ fill block xl yl zl ↔
  ∃ dx dy dz,
    (0 ≤ dx < xl)%Z ∧ (0 ≤ dy < yl)%Z ∧ (0 ≤ dz < zl)%Z ∧
    b = Block.mk (Block.namespace block) (Block.name block)
                 (Location.mk (Location.x (Block.location block) + dx)
                              (Location.y (Block.location block) + dy)
                              (Location.z (Block.location block) + dz))
                 (Block.state block) (Block.inventory block).
Proof. apply elem_of_fill. Qed.

(** X15: the blocks of [fill] lie at pairwise different locations: no
    location is set twice by one request. *)
Theorem fill_distinct_locations (block : Block.t) (xl yl zl : Z) :
  NoDup (Block.location <$> fill block xl yl zl).
Proof.
  rewrite fill_as_triples, <- list_fmap_compose.
  apply NoDup_fmap_2_strong.
  - intros [[x1 y1] z1] [[x2 y2] z2] _ _. simpl.
    intros [= ? ? ?]. repeat f_equal; lia.
  - apply (NoDup_cells (Region.mk 0 0 0 (range_list 0 xl 1)
                          (range_list 0 yl 1) (range_list 0 zl 1)
                          (λ _ _ _, air)));
      apply NoDup_range_list_upto.
Qed.

(** X16: a box can be filled in two parts along x: for lengths [a, c >= 0],
    filling [a + c] cells along x gives the fill of the first [a] followed
    by the fill of [c] cells from the block moved by [a] along x. *)
Theorem fill_split_along_x (block : Block.t) (a c yl zl : Z) :
  (0 ≤ a)%Z → (0 ≤ c)%Z →
  fill block (a + c) yl zl
  = fill block a yl zl ++ fill (shifted block a 0 0) c yl zl.
Proof.
  intros Ha Hc. rewrite !fill_unfold, range_list_upto_app by done.
  rewrite bind_app. f_equal. rewrite list_fmap_bind.
  apply list_bind_ext; [|done]. intros dx. simpl.
  apply list_bind_ext; [|done]. intros dy.
  apply list_bind_ext; [|done]. intros dz.
  by rewrite shifted_shifted.
Qed.

Lemma fill_split_along_x_witness :
  fill oak_log_block (2 + 1) 2 2
  = fill oak_log_block 2 2 2 ++ fill (shifted oak_log_block 2 0 0) 1 2 2.
Proof. apply (fill_split_along_x oak_log_block 2 1 2 2); lia. Defined.

(** ** build_region and clear_region *)

Lemma split_list_nonpositive {A} (l : list A) (k : Z) :
  (k ≤ 0)%Z →
  split_list l k = if (k =? 0)%Z then Raise ValueError else Ret [].
Proof.
  intros Hk. unfold split_list, range, range_list.
  destruct (Z.eqb_spec k 0); [done|].
  destruct (Z.ltb_spec 0 k); [lia|].
  unfold range_len. destruct (Z.leb_spec 0 (len l)); [done|].
  unfold len in *. lia.
Qed.

(** X17: [build_region] reads the whole region before it sends anything:
    when a cell that is not air has an identifier without exactly one
    colon, it raises [ValueError] and no chunk is sent, not even the blocks
    of the cells before that one. *)
Theorem build_region_validates_first (connection : Connection.t)
    (region : Region.t) (start : Location.t) (split_size timeout : option Z)
    (sent : list (list Block.t)) :
  Exists (λ cell, count_colons (BlockState.id (cell_state region cell)) ≠ 1)
         (non_air_cells region) →
  build_region connection region start split_size timeout sent
  = (Raise ValueError, sent).
Proof.
  intros Hbad%(create_blocks_bad_identifier region start).
  unfold build_region, io_bind, lift. by rewrite Hbad.
Qed.

Lemma build_region_validates_first_witness :
  build_region always_ok bare_region origin None None []
  = (Raise ValueError, []).
Proof.
  apply (build_region_validates_first always_ok bare_region origin).
  apply Exists_cons_tl, Exists_cons_hd. simpl. lia.
Defined.

(** X18: with a chunk size of zero or less, [build_region] and
    [clear_region] send nothing, whatever the region holds: size 0 raises
    [ValueError] in the range of [split_list], and a negative size gives no
    chunk at all, so the blocks are dropped and [return result[0]] raises
    [UnboundLocalError]. *)
Theorem bulk_nonpositive_split_size (op : bulk) (connection : Connection.t)
    (region : Region.t) (start : Location.t) (k : Z) (timeout : option Z)
    (blocks : list Block.t) (sent : list (list Block.t)) :
  bulk_blocks op region start = Ret blocks →
  (k ≤ 0)%Z →
  run_bulk op connection region start (Some k) timeout sent
  = (Raise (if (k =? 0)%Z then ValueError else UnboundLocalError), sent).
Proof.
  intros Hblocks Hk.
  rewrite (run_bulk_set_batch _ _ _ _ _ _ _ _ Hblocks).
  unfold set_batch, io_bind, lift. simpl.
  rewrite split_list_nonpositive by done.
  by destruct (k =? 0)%Z.
Qed.

Lemma bulk_nonpositive_split_size_witness :
  run_bulk Build always_ok row_region origin (Some (-5)%Z) None []
  = (Raise UnboundLocalError, []).
Proof.
  apply (bulk_nonpositive_split_size Build always_ok row_region origin (-5)
           None [stone_block; oak_log_block; dirt_block]);
    [by vm_compute|lia].
Defined.

(** X19: on a connection whose [set_blocks] never raises, a bulk operation
    over at least one block with a chunk size [k >= 1] returns a status, and
    by then it has sent every enumerated block exactly once and in order,
    in [ceil(n / k)] requests. *)
Theorem bulk_sends_every_block (op : bulk) (connection : Connection.t)
    (region : Region.t) (start : Location.t) (split_size timeout : option Z)
    (blocks : list Block.t) (sent : list (list Block.t)) :
  bulk_blocks op region start = Ret blocks →
  blocks ≠ [] →
  (1 ≤ default 10000%Z split_size)%Z →
  (∀ past b, ∃ r,
     Connection.set_blocks connection past b (default 300%Z timeout)
     = Ret r) →
  ∃ status chunks,
    run_bulk op connection region start split_size timeout sent
    = (Ret status, sent ++ chunks) ∧
    concat chunks = blocks ∧
    len chunks = ceil_div (len blocks) (default 10000%Z split_size).
Proof.
  intros Hblocks Hne Hk Hok.
  destruct (split_list_partition blocks _ Hk)
    as (chunks & Hchunks & Hlen & _ & Hconcat).
  rewrite (run_bulk_set_batch _ _ _ _ _ _ _ _ Hblocks).
  rewrite (set_batch_chunks _ _ _ _ _ _ Hchunks). unfold io_bind.
  destruct (dispatch_all_return connection (default 300%Z timeout)
              chunks None sent) as [res Hres].
  { intros j b _. apply Hok. }
  rewrite Hres.
  apply dispatch_returned in Hres as [_ Hlast].
  destruct Hlast as [[-> _]|(earlier & last & r & _ & -> & _)].
  - by subst blocks.
  - by exists r.1, chunks.
Qed.

Lemma bulk_sends_every_block_witness :
  ∃ status chunks,
    run_bulk Clear always_ok row_region origin (Some 2%Z) None []
    = (Ret status, [] ++ chunks) ∧
    concat chunks
    = override_to_air <$> [stone_block; oak_log_block; dirt_block] ∧
    len chunks
    = ceil_div (len (override_to_air
                       <$> [stone_block; oak_log_block; dirt_block]))
               (default 10000%Z (Some 2%Z)).
Proof.
  apply (bulk_sends_every_block Clear always_ok row_region origin
           (Some 2%Z) None);
    [by vm_compute|done|simpl; lia|by eexists].
Defined.



(** X21: whatever the connection answers and whatever the chunk size, a
    bulk operation only ever sends the first chunks of its split, in order:
    it never skips a chunk, never sends one twice and never tries again
    after an exception. *)
Theorem bulk_sends_a_prefix (op : bulk) (connection : Connection.t)
    (region : Region.t) (start : Location.t) (split_size timeout : option Z)
    (blocks : list Block.t) (chunks sent : list (list Block.t)) :
  bulk_blocks op region start = Ret blocks →
  split_list blocks (default 10000%Z split_size) = Ret chunks →
  ∃ n,
    (run_bulk op connection region start split_size timeout sent).2
    = sent ++ take n chunks.
Proof.
  intros Hblocks Hchunks.
  rewrite (run_bulk_set_batch _ _ _ _ _ _ _ _ Hblocks).
  rewrite (set_batch_chunks _ _ _ _ _ _ Hchunks). unfold io_bind.
  destruct (dispatch_prefix connection (default 300%Z timeout) chunks None
              sent) as [n Hn].
  exists n.
  destruct (dispatch _ _ _ _ _) as [[res|e] sent']; simpl in *; [|done].
  by destruct res.
Qed.

Lemma bulk_sends_a_prefix_witness :
  ∃ n,
    (run_bulk Build timeout_on_second row_region origin (Some 1%Z) None []).2
    = [] ++ take n [[stone_block]; [oak_log_block]; [dirt_block]].
Proof.
  apply (bulk_sends_a_prefix Build timeout_on_second row_region origin
           (Some 1%Z) None [stone_block; oak_log_block; dirt_block]);
    by vm_compute.
Defined.

(** ** clear_space_near_to_player *)

Lemma by_name_snoc players p :
  by_name (players ++ [p]) = <[OnlinePlayer.name p := p]> (by_name players).
Proof. unfold by_name. by rewrite foldl_snoc. Qed.

Lemma by_name_absent players name :
  Forall (λ p, OnlinePlayer.name p ≠ name) players →
  by_name players !! name = None.
Proof.
  induction players as [|p players IH] using rev_ind; [done|].
  intros [Hps [Hp _]%Forall_cons]%Forall_app.
  rewrite by_name_snoc, lookup_insert_ne by done. by apply IH.
Qed.

Lemma by_name_last before p after :
  Forall (λ q, OnlinePlayer.name q ≠ OnlinePlayer.name p) after →
  by_name (before ++ p :: after) !! OnlinePlayer.name p = Some p.
Proof.
  induction after as [|q after IH] using rev_ind; intros Hafter.
  - by rewrite by_name_snoc, lookup_insert_eq.
  - apply Forall_app in Hafter as [Hafter [Hq _]%Forall_cons].
    rewrite app_comm_cons, app_assoc, by_name_snoc.
    rewrite lookup_insert_ne by done. by apply IH.
Qed.

Lemma fill_one block : fill block 1 1 1 = [block].
Proof.
  rewrite fill_unfold. simpl. destruct block as [ns nm [lx ly lz] st inv].
  unfold shifted. simpl. by rewrite !Z.add_0_r.
Qed.

(** The block [clear_space_near_to_player] starts from for a player. *)
Lemma clear_space_found connection player_name x_length y_length z_length
    timeout sent status players player :
  PlayerConnection.get_players connection sent true = Ret (status, players) →
  by_name players !! player_name = Some player →
  clear_space_near_to_player connection player_name x_length y_length
    z_length timeout sent
  = let blocks :=
      fill (Block.make "air"
              (Location.mk
                 (int (Position.x (OnlinePlayer.location player)))
                 (int (Position.y (OnlinePlayer.location player)))
                 (int (Position.z (OnlinePlayer.location player)))))
           (default 1%Z x_length) (default 1%Z y_length)
           (default 1%Z z_length) in
    match Connection.set_blocks (PlayerConnection.blocks connection) sent
            blocks (default 100%Z timeout) with
    | Raise e => (Raised (Exn e), sent ++ [blocks])
    | Ret r => (Returned r.1, sent ++ [blocks])
    end.
Proof.
  intros Hplayers Hplayer. unfold clear_space_near_to_player.
  rewrite Hplayers. simpl. by rewrite Hplayer.
Qed.

(** X22: when no online player has the given name,
    [clear_space_near_to_player] raises [KeyError] with that name and sets
    no block. *)
Theorem clear_space_unknown_player (connection : PlayerConnection.t)
    (player_name : string) (x_length y_length z_length timeout : option Z)
    (sent : list (list Block.t)) (status : Z)
    (players : list OnlinePlayer.t) :
  PlayerConnection.get_players connection sent true = Ret (status, players) →
  Forall (λ p, OnlinePlayer.name p ≠ player_name) players →
  clear_space_near_to_player connection player_name x_length y_length
    z_length timeout sent
  = (Raised (KeyError player_name), sent).
Proof.
  intros Hplayers Habsent. unfold clear_space_near_to_player.
  rewrite Hplayers. simpl. by rewrite by_name_absent.
Qed.

Lemma clear_space_unknown_player_witness :
  clear_space_near_to_player three_online "Herobrine" None None None None []
  = (Raised (KeyError "Herobrine"), []).
Proof.
  apply (clear_space_unknown_player three_online "Herobrine" None None None
           None [] 200 [alex_before; steve; alex_after]);
    [reflexivity|by repeat constructor].
Defined.

(** X23: when the player is online, [clear_space_near_to_player] sends one
    request, the [fill] of an air block over the given lengths from the
    player's coordinates cut to integers, and returns the status of that
    request; of several online players with the name, the one listed last
    counts. *)
Theorem clear_space_sets_box (connection : PlayerConnection.t)
    (x_length y_length z_length timeout : option Z)
    (sent : list (list Block.t)) (status : Z)
    (before after : list OnlinePlayer.t) (player : OnlinePlayer.t)
    (answer : response (list Block.t)) :
  PlayerConnection.get_players connection sent true
  = Ret (status, before ++ player :: after) →
  Forall (λ q, OnlinePlayer.name q ≠ OnlinePlayer.name player) after →
  Connection.set_blocks (PlayerConnection.blocks connection) sent
    (fill (Block.make "air"
             (Location.mk (int (Position.x (OnlinePlayer.location player)))
                          (int (Position.y (OnlinePlayer.location player)))
                          (int (Position.z (OnlinePlayer.location player)))))
          (default 1%Z x_length) (default 1%Z y_length)
          (default 1%Z z_length))
    (default 100%Z timeout)
  = Ret answer →
  clear_space_near_to_player connection (OnlinePlayer.name player)
    x_length y_length z_length timeout sent
  = (Returned answer.1,
     sent ++
     [fill (Block.make "air"
              (Location.mk (int (Position.x (OnlinePlayer.location player)))
                           (int (Position.y (OnlinePlayer.location player)))
                           (int (Position.z (OnlinePlayer.location player)))))
           (default 1%Z x_length) (default 1%Z y_length)
           (default 1%Z z_length)]).
Proof.
  intros Hplayers Hlast Hset.
  rewrite (clear_space_found _ _ _ _ _ _ _ _ _ player Hplayers);
    [|by apply by_name_last].
  simpl. by rewrite Hset.
Qed.

Lemma clear_space_sets_box_witness :
  clear_space_near_to_player three_online "Alex"
    (Some 2%Z) None (Some 2%Z) None []
  = (Returned 200%Z,
     [] ++ [fill (Block.make "air" (Location.mk 8 71 9)) 2 1 2]).
Proof.
  apply (clear_space_sets_box three_online (Some 2%Z) None (Some 2%Z) None
           [] 200 [alex_before; steve] [] alex_after
           (200%Z, fill (Block.make "air" (Location.mk 8 71 9)) 2 1 2));
    [reflexivity|constructor|reflexivity].
Defined.

(** X24: [clear_space_near_to_player] sets nothing but air and does not
    split its blocks: whatever the connection answers, it sends no request
    or exactly one, and every block of that request is an air block with
    the default namespace, no state and no inventory. *)
Theorem clear_space_one_request_of_air (connection : PlayerConnection.t)
    (player_name : string) (x_length y_length z_length timeout : option Z)
    (sent : list (list Block.t)) :
  (clear_space_near_to_player connection player_name x_length y_length
     z_length timeout sent).2 = sent ∨
  ∃ request,
    (clear_space_near_to_player connection player_name x_length y_length
       z_length timeout sent).2 = sent ++ [request] ∧
    length request
    = (Z.to_nat (default 1%Z x_length) * (Z.to_nat (default 1%Z y_length)
       * Z.to_nat (default 1%Z z_length)))%nat ∧
    Forall (λ block,
              Block.namespace block = "minecraft" ∧
              Block.name block = "air" ∧
              Block.state block = ∅ ∧
              Block.inventory block = [])
           request.
Proof.
  destruct (PlayerConnection.get_players connection sent true)
    as [[status players]|e] eqn:Hplayers.
  2: { left. unfold clear_space_near_to_player. by rewrite Hplayers. }
  destruct (by_name players !! player_name) as [player|] eqn:Hplayer.
  2: { left. unfold clear_space_near_to_player. rewrite Hplayers. simpl.
       by rewrite Hplayer. }
  right. rewrite (clear_space_found _ _ _ _ _ _ _ _ _ _ Hplayers Hplayer).
  simpl. eexists. split; [by destruct (Connection.set_blocks _ _ _ _)|].
  split.
  - rewrite fill_unfold.
    rewrite (length_bind_const _ (Z.to_nat (default 1%Z y_length)
                                  * Z.to_nat (default 1%Z z_length))).
    + by rewrite length_range_list_upto.
    + intros dx. rewrite (length_bind_const _
                            (Z.to_nat (default 1%Z z_length))).
      * by rewrite length_range_list_upto.
      * intros dy. rewrite (length_bind_const _ 1); [|done].
        rewrite length_range_list_upto. lia.
  - apply Forall_forall. intros block Hblock.
    by apply elem_of_fill in Hblock as (dx & dy & dz & _ & _ & _ & ->).
Qed.

(** X25: without lengths, [clear_space_near_to_player] clears one block,
    the one at the player's coordinates cut to integers: a float
    coordinate is cut toward zero, so 3.5 gives 3 and -7.25 gives -7. *)
Theorem clear_space_default_is_one_block (connection : PlayerConnection.t)
    (timeout : option Z) (sent : list (list Block.t)) (status : Z)
    (before after : list OnlinePlayer.t) (player : OnlinePlayer.t) :
  PlayerConnection.get_players connection sent true
  = Ret (status, before ++ player :: after) →
  Forall (λ q, OnlinePlayer.name q ≠ OnlinePlayer.name player) after →
  (clear_space_near_to_player connection (OnlinePlayer.name player)
     None None None timeout sent).2
  = sent ++
    [[Block.make "air"
        (Location.mk (int (Position.x (OnlinePlayer.location player)))
                     (int (Position.y (OnlinePlayer.location player)))
                     (int (Position.z (OnlinePlayer.location player))))]].
Proof.
  intros Hplayers Hlast.
  rewrite (clear_space_found _ _ _ _ _ _ _ _ _ player Hplayers);
    [|by apply by_name_last].
  simpl. rewrite fill_one. by destruct (Connection.set_blocks _ _ _ _).
Qed.

Lemma clear_space_default_is_one_block_witness :
  (clear_space_near_to_player three_online "Steve" None None None None []).2
  = [] ++ [[Block.make "air" (Location.mk 3 64 (-7))]].
Proof.
  apply (clear_space_default_is_one_block three_online None [] 200
           [alex_before] [alex_after] steve);
    [reflexivity|by repeat constructor].
Defined.

(** X26: [create_blocks] never emits air read from the region: without a
    [default_block_name], no block of the list has the namespace and name
    of ["minecraft:air"], so the air cells of a schematic leave the world
    as it is. *)
Theorem create_blocks_emits_no_air (region : Region.t) (start : Location.t)
    (blocks : list Block.t) :
  create_blocks region start None = Ret blocks →
  Forall (λ block,
            Block.namespace block +:+ ":" +:+ Block.name block
            ≠ "minecraft:air")
         blocks.
Proof.
  rewrite create_blocks_collect. intros Hblocks%collect_Forall2.
  apply Forall_forall. intros block Hblock.
  apply list_elem_of_lookup in Hblock as [i Hi].
  destruct (Forall2_lookup_r _ _ _ _ _ Hblocks Hi) as (cell & Hcell & Hmake).
  apply list_elem_of_lookup_2, list_elem_of_filter in Hcell as [Hair _].
  unfold block_of_cell, to_block in Hmake.
  destruct (split_colon (BlockState.id (cell_state region cell)))
    as [|namespace [|name [|third pieces]]] eqn:Hid; try done.
  injection Hmake as <-. simpl.
  apply split_colon_two in Hid. by rewrite <- Hid.
Qed.

Lemma create_blocks_emits_no_air_witness :
  Forall (λ block,
            Block.namespace block +:+ ":" +:+ Block.name block
            ≠ "minecraft:air")
         [stone_block; oak_log_block; dirt_block].
Proof.
  apply (create_blocks_emits_no_air row_region origin). by vm_compute.
Defined.
